(** * Google Cloud gRPC tracing integration (packages/serverless/src/google-cloud-grpc.ts)

    A shallow embedding of the integration and the properties of its
    specification.  JavaScript strings are sequences of UTF-16 code units,
    objects live in a heap and are reached through references, functions are
    heap objects carrying a closure, and a call either returns a value or
    throws one. *)

From Stdlib Require Import String Ascii NArith.
From stdpp Require Import base option list gmap.

Set Default Proof Using "Type".
Open Scope N_scope.
Open Scope nat_scope.
Open Scope list_scope.

(** ** Strings *)

(** A JavaScript string: its UTF-16 code units. *)
Definition jsstring := list N.

(** The code units of a literal of the source text. *)
Fixpoint lit (s : string) : jsstring :=
  match s with
  | EmptyString => []
  | String a s' => N_of_ascii a :: lit s'
  end.

Fixpoint str_eqb (a b : jsstring) : bool :=
  match a, b with
  | [], [] => true
  | x :: a', y :: b' => N.eqb x y && str_eqb a' b'
  | _, _ => false
  end.

(** ** Regular expressions

    The fragment of ECMAScript patterns that the source uses, with the
    backtracking semantics of the language definition: a matcher takes a
    match state and a continuation, and a greedy quantifier tries the longest
    repetition first. *)

Module Regex.

(** Character classes. *)
Inductive charset :=
| CsLit (c : N)   (* a literal or escaped character, such as [g] or [\.] *)
| CsWord          (* [\w] *)
| CsDot.          (* [.] without the [s] flag *)

(** [\w] is [[A-Za-z0-9_]]. *)
Definition is_word (c : N) : bool :=
  ((48 <=? c) && (c <=? 57) || (65 <=? c) && (c <=? 90)
   || (c =? 95) || (97 <=? c) && (c <=? 122))%N.

(** Line terminators: LF, CR, U+2028 and U+2029. *)
Definition is_line_terminator (c : N) : bool :=
  ((c =? 10) || (c =? 13) || (c =? 8232) || (c =? 8233))%N.

Definition cs_mem (cs : charset) (c : N) : bool :=
  match cs with
  | CsLit d => N.eqb c d
  | CsWord => is_word c
  | CsDot => negb (is_line_terminator c)
  end.

Inductive regex :=
| REmpty
| RBol                      (* [^] without the [m] flag *)
| REol                      (* [$] without the [m] flag *)
| RChar (cs : charset)
| RPlus (cs : charset)      (* greedy [+] on a character class *)
| RGroup (r : regex)        (* capturing group number 1 *)
| RSeq (r1 r2 : regex).

(** A run of literal characters. *)
Fixpoint RLit (s : jsstring) (k : regex) : regex :=
  match s with
  | [] => k
  | c :: s' => RSeq (RChar (CsLit c)) (RLit s' k)
  end.

Record MatchState := mkState {
  endIndex : nat;                 (* number of code units consumed *)
  remaining : jsstring;           (* the input from [endIndex] on *)
  capture1 : option jsstring      (* what group 1 captured, if it took part *)
}.

Definition Continuation := MatchState -> option MatchState.

(** One or more characters of [cs], longest first; on failure of the
    continuation one character is given back at a time. *)
Fixpoint plus_greedy (cs : charset) (rest : jsstring) (e : nat)
    (cap : option jsstring) (c : Continuation) : option MatchState :=
  match rest with
  | [] => None
  | ch :: rest' =>
      if cs_mem cs ch then
        match plus_greedy cs rest' (S e) cap c with
        | Some y => Some y
        | None => c (mkState (S e) rest' cap)
        end
      else None
  end.

Fixpoint matcher (r : regex) (x : MatchState) (c : Continuation)
    : option MatchState :=
  match r with
  | REmpty => c x
  | RBol => if Nat.eqb (endIndex x) 0 then c x else None
  | REol => match remaining x with [] => c x | _ :: _ => None end
  | RChar cs =>
      match remaining x with
      | ch :: rest =>
          if cs_mem cs ch then c (mkState (S (endIndex x)) rest (capture1 x))
          else None
      | [] => None
      end
  | RPlus cs => plus_greedy cs (remaining x) (endIndex x) (capture1 x) c
  | RGroup r' =>
      matcher r' x (fun y =>
        c (mkState (endIndex y) (remaining y)
             (Some (take (endIndex y - endIndex x) (remaining x)))))
  | RSeq r1 r2 => matcher r1 x (fun y => matcher r2 y c)
  end.

(** The match at the start positions [i], [i+1], ... of the input, the
    first that succeeds: what [exec] does for a pattern without the [g] and
    [y] flags. *)
Fixpoint exec_from (r : regex) (rest : jsstring) (i : nat)
    : option MatchState :=
  match matcher r (mkState i rest None) Some with
  | Some y => Some y
  | None =>
      match rest with
      | [] => None
      | _ :: rest' => exec_from r rest' (S i)
      end
  end.

(** [s.match(r)] for a pattern without the [g] flag: [None] is [null],
    and [capture1] of the result is element 1 of the match array. *)
Definition str_match (s : jsstring) (r : regex) : option MatchState :=
  exec_from r s 0.

End Regex.

Import Regex.

(** ** Service identifier *)

(** The pattern of [identifyService], [/^(\w+)\.googleapis.com$/]: the dot
    before [googleapis] is escaped, the one before [com] is not. *)
Definition service_pattern : regex :=
  RSeq RBol
    (RSeq (RGroup (RPlus CsWord))
       (RSeq (RChar (CsLit 46))
          (RLit (lit "googleapis")
             (RSeq (RChar CsDot) (RLit (lit "com") REol))))).

(** [identifyService]: [match ? match[1] : servicePath].  Group 1 takes part
    in every match of the pattern ([service_pattern_capture]); the empty
    string stands for the [undefined] of a group that did not. *)
Definition identifyService (servicePath : jsstring) : jsstring :=
  match str_match servicePath service_pattern with
  | Some m => default [] (capture1 m)
  | None => servicePath
  end.

(** The pattern as the specification writes it, [^\w+\.googleapis\.com$],
    with both dots escaped and the prefix captured. *)
Definition spec_service_pattern : regex :=
  RSeq RBol
    (RSeq (RGroup (RPlus CsWord))
       (RSeq (RChar (CsLit 46))
          (RLit (lit "googleapis")
             (RSeq (RChar (CsLit 46)) (RLit (lit "com") REol))))).

(** ** Values, closures and objects *)

Abbreviation loc := nat (only parsing).

(** The values the integration handles.  Numbers and symbols do not occur
    in it; they would behave as the other primitives do. *)
Inductive value :=
| VUndefined
| VNull
| VBool (b : bool)
| VStr (s : jsstring)
| VRef (l : loc)                (* an object, a function or a promise *)
| VError (message : jsstring)   (* an error object, opaque *)
| VBuiltinProto.                (* a built-in prototype, such as
                                   [String.prototype]: no enumerable
                                   property, not callable *)

(** The error the language raises by itself: reading a property of
    [undefined], calling what is not a function. *)
Definition TypeError : value := VError (lit "TypeError").

(** What a call yields. [OutOfFuel] is the call that has not returned. *)
Inductive result (A : Type) :=
| Ok (a : A)
| Throw (e : value)
| OutOfFuel.
Arguments Ok {A} a.
Arguments Throw {A} e.
Arguments OutOfFuel {A}.

(** The continuation of the asynchronous function of [_wrapCreateStub] at
    its [await]: the captured [client] and the local [serviceIdentifier]. *)
Inductive kont :=
| KWrapMethods (client : option nat) (serviceIdentifier : jsstring).

(** The promise of an asynchronous function. *)
Inductive async_state :=
| AResolved (v : value)          (* the body returned [v]: the promise is
                                    resolved with [v], and follows [v]
                                    when [v] is a promise itself *)
| ARejected (e : value)          (* the body threw [e] *)
| AAwaiting (p : value) (k : kont).  (* the body is suspended at [await p] *)

(** Function values, closures included, by the place that creates them. *)
Inductive closure :=
| CExt (id : nat)
    (* a function of the RPC library: [createStub], a stub method *)
| COn
    (* [EventEmitter.prototype.on] *)
| CCreateStubWrapper (origCreate : value) (client : option nat)
    (* the asynchronous function of lines 64-75 *)
| CGrpcWrapper (orig : value) (client : option nat) (stub : value)
    (serviceIdentifier methodName callType : jsstring)
    (* the arrow function of lines 109-128 *)
| CStatusListener (span : option nat).
    (* the arrow function of lines 122-126 *)

Record prop := mkProp { enumerable : bool; pvalue : value }.

Record obj := mkObj {
  proto : value;                        (* [[Prototype]] *)
  props : list (jsstring * prop);       (* own data properties, in order *)
  code : option closure;                (* [[Call]], of a function *)
  listeners : list (jsstring * value);  (* of an event emitter *)
  promise : option async_state          (* of a promise *)
}.

(** A span of the tracing client; [finished] counts the calls of
    [finish]. *)
Record Span := mkSpan {
  description : jsstring;
  op : jsstring;
  transaction : nat;
  finished : nat
}.

Record world := mkWorld {
  heap : list obj;
  scopes : gmap nat nat;   (* client to the transaction on its scope *)
  spans : list Span;
  modules : gmap jsstring (result value)   (* what [require] finds *)
}.

Definition set_heap (h : list obj) (w : world) : world :=
  mkWorld h (scopes w) (spans w) (modules w).

Definition set_spans (s : list Span) (w : world) : world :=
  mkWorld (heap w) (scopes w) s (modules w).

(** ** Computations: state passing with exceptions *)

Definition M (A : Type) : Type := world -> result A * world.

Definition ret {A} (a : A) : M A := fun w => (Ok a, w).

Definition throw {A} (e : value) : M A := fun w => (Throw e, w).

Definition bind {A B} (m : M A) (k : A -> M B) : M B :=
  fun w =>
    match m w with
    | (Ok a, w') => k a w'
    | (Throw e, w') => (Throw e, w')
    | (OutOfFuel, w') => (OutOfFuel, w')
    end.

(** [try { m } catch (e) { handler e }] *)
Definition try_catch {A} (m : M A) (handler : value -> M A) : M A :=
  fun w =>
    match m w with
    | (Throw e, w') => handler e w'
    | r => r
    end.

Declare Scope js_scope.
Delimit Scope js_scope with js.
Notation "'do' x <- m ; k" := (bind m (fun x => k))
  (at level 10, x name, m at level 100, k at level 200) : js_scope.
Notation "m ;; k" := (bind m (fun _ => k))
  (at level 100, k at level 200, right associativity) : js_scope.
Open Scope js_scope.

(** ** Property access *)

Fixpoint assoc {A} (key : jsstring) (l : list (jsstring * A)) : option A :=
  match l with
  | [] => None
  | (k, a) :: l' => if str_eqb k key then Some a else assoc key l'
  end.

(** The property [key] of [v] along the prototype chain; a chain is
    shorter than the heap it lives in. *)
Fixpoint lookup_chain (fuel : nat) (h : list obj) (v : value)
    (key : jsstring) : value :=
  match fuel with
  | 0 => VUndefined
  | S n =>
      match v with
      | VRef l =>
          match h !! l with
          | Some o =>
              match assoc key (props o) with
              | Some p => pvalue p
              | None => lookup_chain n h (proto o) key
              end
          | None => VUndefined
          end
      | _ => VUndefined
      end
  end.

(** [v[key]] *)
Definition get (v : value) (key : jsstring) : M value :=
  fun w =>
    match v with
    | VUndefined | VNull => throw TypeError w
    | _ => ret (lookup_chain (S (length (heap w))) (heap w) v key) w
    end.

(** [v?.[key]] *)
Definition get_optional (v : value) (key : jsstring) : M value :=
  match v with
  | VUndefined | VNull => ret VUndefined
  | _ => get v key
  end.

Definition closure_of (h : list obj) (v : value) : option closure :=
  match v with
  | VRef l => o ← h !! l; code o
  | _ => None
  end.

(** [typeof v === 'function'] *)
Definition is_function (v : value) : M bool :=
  fun w => ret (bool_decide (is_Some (closure_of (heap w) v))) w.

Definition truthy (v : value) : bool :=
  match v with
  | VUndefined | VNull => false
  | VBool b => b
  | VStr s => negb (str_eqb s [])
  | _ => true
  end.

(** [v == null], which [undefined] satisfies as well *)
Definition is_nullish (v : value) : bool :=
  match v with
  | VUndefined | VNull => true
  | _ => false
  end.

Fixpoint upsert (key : jsstring) (x : value) (l : list (jsstring * prop))
    : list (jsstring * prop) :=
  match l with
  | [] => [(key, mkProp true x)]
  | (k, p) :: l' =>
      if str_eqb k key then (k, mkProp (enumerable p) x) :: l'
      else (k, p) :: upsert key x l'
  end.

Definition set_own (key : jsstring) (x : value) (o : obj) : obj :=
  mkObj (proto o) (upsert key x (props o)) (code o) (listeners o) (promise o).

(** [v[key] = x] in strict mode, on writable data properties: the property
    becomes an own property of [v]. *)
Definition set (v : value) (key : jsstring) (x : value) : M unit :=
  fun w =>
    match v with
    | VRef l => ret tt (set_heap (alter (set_own key x) l (heap w)) w)
    | _ => throw TypeError w
    end.

Definition alloc (o : obj) : M value :=
  fun w => ret (VRef (length (heap w))) (set_heap (heap w ++ [o]) w).

Definition function_obj (c : closure) : obj :=
  mkObj VBuiltinProto [] (Some c) [] None.

Definition promise_obj (st : async_state) : obj :=
  mkObj VBuiltinProto [] None [] (Some st).

Definition set_promise (st : async_state) (o : obj) : obj :=
  mkObj (proto o) (props o) (code o) (listeners o) (Some st).

(** A function expression evaluates to a fresh function object. *)
Definition alloc_function (c : closure) : M value :=
  alloc (function_obj c).

(** [Object.getPrototypeOf(v)] *)
Definition getPrototypeOf (v : value) : M value :=
  fun w =>
    match v with
    | VUndefined | VNull => throw TypeError w
    | VRef l =>
        match heap w !! l with
        | Some o => ret (proto o) w
        | None => ret VNull w
        end
    | _ => ret VBuiltinProto w
    end.

(** [Object.keys(v)]: the own enumerable property names, in order. *)
Definition Object_keys (v : value) : M (list jsstring) :=
  fun w =>
    match v with
    | VUndefined | VNull => throw TypeError w
    | VRef l =>
        match heap w !! l with
        | Some o => ret (map fst (filter (fun kp => enumerable (snd kp) = true) (props o))) w
        | None => ret [] w
        end
    | _ => ret [] w
    end.

(** [for (const x of l) body x] *)
Fixpoint for_of {A} (l : list A) (body : A -> M unit) : M unit :=
  match l with
  | [] => ret tt
  | x :: l' => body x ;; for_of l' body
  end.

(** ** The collaborators *)

(** Modelled from the spec: the tracing client of @sentry/types and its
    implementation are not among the sources.  Section 6 gives the
    interface: [getScope() -> Scope], [Scope.getTransaction() ->
    Transaction | undefined], [Transaction.startChild({ description, op })
    -> Span], [Span.finish()].  [getTransaction client] is
    [client.getScope().getTransaction()]. *)
Definition getTransaction (client : option nat) : M (option nat) :=
  fun w =>
    match client with
    | None => throw TypeError w
    | Some c => ret (scopes w !! c) w
    end.

(** Modelled from the spec: [Transaction.startChild] of the tracing client
    (section 6) starts a span, open, under the transaction. *)
Definition startChild (t : nat) (description op : jsstring) : M nat :=
  fun w =>
    ret (length (spans w))
      (set_spans (spans w ++ [mkSpan description op t 0]) w).

Definition finish_span (s : Span) : Span :=
  mkSpan (description s) (op s) (transaction s) (S (finished s)).

(** Modelled from the spec: [Span.finish] of the tracing client
    (section 6) closes the span. *)
Definition finish (span : nat) : M unit :=
  fun w => ret tt (set_spans (alter finish_span span (spans w)) w).

(** Modelled from the spec: [require] of the module loader is not among the
    sources.  It yields the module or throws the load failure; a module
    that is not installed cannot be found. *)
Definition require (name : jsstring) : M value :=
  fun w =>
    match modules w !! name with
    | Some r => (r, w)
    | None => throw (VError (lit "Cannot find module")) w
    end.

Definition add_listener (event : jsstring) (listener : value) (o : obj) : obj :=
  mkObj (proto o) (props o) (code o) (listeners o ++ [(event, listener)])
    (promise o).

(** Modelled from the spec: [on(eventName, callback)] of the event-capable
    handle (section 6), as the [EventEmitter] of Node has it: the listener
    is added after those already registered for the event, and the emitter
    is returned. *)
Definition emitter_on (this : value) (args : list value) : M value :=
  fun w =>
    match this, args !! 0 with
    | VRef l, Some (VStr event) =>
        let listener := default VUndefined (args !! 1) in
        if bool_decide (is_Some (closure_of (heap w) listener)) then
          ret this (set_heap (alter (add_listener event listener) l (heap w)) w)
        else throw TypeError w
    | _, _ => throw TypeError w
    end.

(** ** The integration *)

(** The class [GoogleCloudGrpc]; [_client] is [None] until [install]
    assigns it. *)
Record GoogleCloudGrpc := mkGoogleCloudGrpc {
  _client : option nat;
  _optional : bool
}.

(** The argument of the constructor, [{ optional?: boolean }]. *)
Record Options := mkOptions { optional : option bool }.

(** [constructor(options = {})]: [this._optional = options.optional ||
    false]. *)
Definition constructor (options : option Options) : GoogleCloudGrpc :=
  let options := default (mkOptions None) options in
  mkGoogleCloudGrpc None
    (match optional options with
     | Some b => b || false
     | None => false
     end).

(** Modelled from the spec: [fill] of @sentry/utils is not among the
    sources.  Sections 4.1 and 4.3 have it replace the function at a
    property by a wrapping function: [source[name]] becomes
    [replacementFactory(source[name])]. *)
Definition fill (source : value) (name : jsstring)
    (replacementFactory : value -> M value) : M unit :=
  do original <- get source name;
  do wrapped <- replacementFactory original;
  set source name wrapped.

(** The call type of lines 95-102. *)
Definition callTypeOf (requestStream responseStream : value) : jsstring :=
  if negb (truthy requestStream) && negb (truthy responseStream)
  then lit "unary call"
  else if truthy requestStream && negb (truthy responseStream)
  then lit "client stream"
  else if negb (truthy requestStream) && truthy responseStream
  then lit "server stream"
  else lit "bidi stream".

(** [fillGrpcFunction], lines 80-130. *)
Definition fillGrpcFunction (client : option nat) (stub : value)
    (serviceIdentifier methodName : jsstring) : M unit :=
  do funcObj <- get stub methodName;
  do isFunction <- is_function funcObj;
  if negb isFunction then ret tt else
  do requestStream <- get funcObj (lit "requestStream");
  do responseStream <- get funcObj (lit "responseStream");
  let callType := callTypeOf requestStream responseStream in
  if negb (str_eqb callType (lit "unary call")) then ret tt else
  fill stub methodName (fun orig =>
    alloc_function
      (CGrpcWrapper orig client stub serviceIdentifier methodName callType)).

(** [servicePath.match(...)] on the declared type, a string.  A value of
    another type is outside that type: the code would call whatever
    [match] it has, and none in general; here it raises the [TypeError]
    of a missing [match]. *)
Definition identifyServiceOf (servicePath : value) : M jsstring :=
  match servicePath with
  | VStr s => ret (identifyService s)
  | _ => throw TypeError
  end.

(** An asynchronous function turns what its body throws into the rejection
    of its promise. *)
Definition async (body : M async_state) : M async_state :=
  try_catch body (fun e => ret (ARejected e)).

(** How the promise that the body awaits settles. *)
Inductive settlement :=
| Fulfilled (v : value)
| Rejected (e : value).

(** The body after [await] has yielded: lines 70-74, from the value of the
    awaited promise, or its failure, which [await] throws. *)
Definition createStub_resume (k : kont) (settled : settlement)
    : M async_state :=
  match k with
  | KWrapMethods client serviceIdentifier =>
      async (
        do stub <-
          match settled with
          | Fulfilled v => ret v
          | Rejected e => throw e
          end;
        do prototype <- getPrototypeOf stub;
        do names <- Object_keys prototype;
        for_of names (fun methodName =>
          fillGrpcFunction client stub serviceIdentifier methodName) ;;
        ret (AResolved stub))
  end.

Section Calls.

(** The functions of the RPC library, by identifier: what a call does to
    the heap and what it yields.  The library does not reach the tracing
    client. *)
Variable ext : nat -> value -> list value -> list obj -> result value * list obj.

Definition ext_call (id : nat) (this : value) (args : list value) : M value :=
  fun w =>
    let (r, h) := ext id this args (heap w) in (r, set_heap h w).

Section Bodies.

(** [f.apply(this, args)] *)
Variable apply : value -> value -> list value -> M value.

(** The asynchronous function of [_wrapCreateStub] up to its first
    [await] or its [return], lines 64-70. *)
Definition createStub_start (origCreate : value) (client : option nat)
    (this : value) (args : list value) : M async_state :=
  async (
    do servicePath <- get_optional (default VUndefined (args !! 1))
                        (lit "servicePath");
    if is_nullish servicePath || is_nullish servicePath then
      do r <- apply origCreate this args;
      ret (AResolved r)
    else
      do serviceIdentifier <- identifyServiceOf servicePath;
      do p <- apply origCreate this args;
      ret (AAwaiting p (KWrapMethods client serviceIdentifier))).

(** The wrapper of a unary method, lines 109-128.  It is an arrow
    function: the receiver [this] of its own call is not in its body. *)
Definition grpc_wrapper (orig : value) (client : option nat) (stub : value)
    (serviceIdentifier methodName callType : jsstring)
    (this : value) (args : list value) : M value :=
  do r <- apply orig stub args;
  do on <- get_optional r (lit "on");
  do isFunction <- is_function on;
  if negb isFunction then ret r else
  do transaction <- getTransaction client;
  do span <-
    match transaction with
    | Some t =>
        do s <- startChild t (callType ++ lit " " ++ methodName)
                  (lit "gcloud.grpc." ++ serviceIdentifier);
        ret (Some s)
    | None => ret None
    end;
  do on <- get r (lit "on");
  do listener <- alloc_function (CStatusListener span);
  apply on r [VStr (lit "status"); listener] ;;
  ret r.

(** The listener of the status event, lines 122-126. *)
Definition status_listener (span : option nat) : M value :=
  match span with
  | Some s => finish s ;; ret VUndefined
  | None => ret VUndefined
  end.

End Bodies.

(** A call of the function value [f]. *)
Fixpoint call (fuel : nat) (f this : value) (args : list value) : M value :=
  fun w =>
    match fuel with
    | 0 => (OutOfFuel, w)
    | S n =>
        match closure_of (heap w) f with
        | None => throw TypeError w
        | Some (CExt id) => ext_call id this args w
        | Some COn => emitter_on this args w
        | Some (CCreateStubWrapper origCreate client) =>
            (do st <- createStub_start (call n) origCreate client this args;
             alloc (promise_obj st)) w
        | Some (CGrpcWrapper orig client stub serviceIdentifier methodName
                  callType) =>
            grpc_wrapper (call n) orig client stub serviceIdentifier
              methodName callType this args w
        | Some (CStatusListener span) => status_listener span w
        end
    end.

(** Modelled from the spec: the handle "emits a terminal lifecycle event"
    (section 1), as [emit] of the [EventEmitter] of Node does: the
    listeners registered for the event are called in the order of their
    registration, with the emitter as receiver. *)
Definition emit (fuel : nat) (emitter : value) (event : jsstring)
    (args : list value) : M unit :=
  fun w =>
    match emitter with
    | VRef l =>
        match heap w !! l with
        | Some o =>
            for_of (filter (fun el => str_eqb (fst el) event = true) (listeners o))
              (fun el => call fuel (snd el) emitter args ;; ret tt) w
        | None => throw TypeError w
        end
    | _ => throw TypeError w
    end.

(** The promise [p] of the asynchronous function takes up its body when
    what it awaits has settled: with the value, or with the failure. *)
Definition resume (p : loc) (settled : settlement) : M unit :=
  fun w =>
    match heap w !! p with
    | Some o =>
        match promise o with
        | Some (AAwaiting _ k) =>
            (do st <- createStub_resume k settled;
             fun w' =>
               ret tt (set_heap (alter (set_promise st) p (heap w')) w')) w
        | _ => ret tt w
        end
    | None => ret tt w
    end.

End Calls.

(** ** Promises that follow promises *)

(** [v] is a promise-like: a promise, whose [then] is built in, or an
    object with a callable [then]. *)
Definition thenable (h : list obj) (v : value) : bool :=
  match v with
  | VRef l =>
      match h !! l with
      | Some o =>
          bool_decide (is_Some (promise o))
          || bool_decide (is_Some (closure_of h
               (lookup_chain (S (length h)) h v (lit "then"))))
      | None => false
      end
  | _ => false
  end.

(** How the promise of an asynchronous function has settled, if it has.
    A promise resolved with a promise-like is pending until that one
    settles; so is the promise of a body suspended at its [await]. *)
Definition settlement_of (h : list obj) (st : async_state)
    : option settlement :=
  match st with
  | AResolved v => if thenable h v then None else Some (Fulfilled v)
  | ARejected e => Some (Rejected e)
  | AAwaiting _ _ => None
  end.

(** The state that a promise takes from the settlement of the promise-like
    it follows: resolved with its value, or rejected with its failure. *)
Definition settled_state (settled : settlement) : async_state :=
  match settled with
  | Fulfilled v => AResolved v
  | Rejected e => ARejected e
  end.

(** The promise at [p], resolved with a promise-like, takes the fate of
    that promise-like when it settles: through its [then] it calls back
    with its value or with its failure.  A promise that follows nothing is
    left alone. *)
Definition adopt (p : loc) (settled : settlement) : M unit :=
  fun w =>
    match heap w !! p with
    | Some o =>
        match promise o with
        | Some (AResolved r) =>
            if thenable (heap w) r then
              ret tt (set_heap
                        (alter (set_promise (settled_state settled)) p (heap w))
                        w)
            else ret tt w
        | _ => ret tt w
        end
    | None => ret tt w
    end.

(** [_wrapCreateStub], lines 61-76: the wrapper of [origCreate] captures
    the client of the instance. *)
Definition _wrapCreateStub (self : GoogleCloudGrpc) (origCreate : value)
    : M value :=
  let client := _client self in
  alloc_function (CCreateStubWrapper origCreate client).

(** [install], lines 43-58: the instance after the call, and what the call
    yields. *)
Definition install (self : GoogleCloudGrpc) (client : nat) (w : world)
    : GoogleCloudGrpc * (result unit * world) :=
  let self := mkGoogleCloudGrpc (Some client) (_optional self) in
  (self,
   try_catch
     (do gaxModule <- require (lit "google-gax");
      do GrpcClient <- get gaxModule (lit "GrpcClient");
      do prototype <- get GrpcClient (lit "prototype");
      fill prototype (lit "createStub") (_wrapCreateStub self))
     (fun e => if negb (_optional self) then throw e else ret tt)
     w).

(** ** Worlds the properties speak of *)

(** The value of [v?.[key]] in the heap [h]. *)
Definition optional_member (v : value) (key : jsstring) (h : list obj)
    : value :=
  match v with
  | VUndefined | VNull => VUndefined
  | _ => lookup_chain (S (length h)) h v key
  end.

(** [args[1]?.servicePath], as [createStub_start] reads it. *)
Definition servicePath_arg (args : list value) (h : list obj) : value :=
  optional_member (default VUndefined (args !! 1)) (lit "servicePath") h.

(** The world after [fillGrpcFunction] has wrapped the method at [method]
    of the stub at [stub]: the wrapper is a new function, and the property
    of the stub holds it. *)
Definition wrapped (client : option nat) (stub method : loc)
    (serviceIdentifier methodName : jsstring) (w : world) : world :=
  set_heap
    (alter (set_own methodName (VRef (length (heap w)))) stub
       (heap w ++ [function_obj
                     (CGrpcWrapper (VRef method) client (VRef stub)
                        serviceIdentifier methodName (lit "unary call"))]))
    w.

(** The span that a call of a wrapped method starts: none without a
    transaction on the scope of the client. *)
Definition started (client : nat) (description op : jsstring) (w : world)
    : list Span :=
  match scopes w !! client with
  | Some t => [mkSpan description op t 0]
  | None => []
  end.

(** The world after the instrumentation of the handle at [handle]: the
    span, the listener and its registration for the status event. *)
Definition instrumented (client : nat) (description op : jsstring)
    (handle : loc) (w : world) : world :=
  mkWorld
    (alter (add_listener (lit "status") (VRef (length (heap w)))) handle
       (heap w ++ [function_obj (CStatusListener
                     (match scopes w !! client with
                      | Some _ => Some (length (spans w))
                      | None => None
                      end))]))
    (scopes w)
    (spans w ++ started client description op w)
    (modules w).

(** The two patterns differ in the class before [com] only: what follows
    the group, and the whole pattern. *)
Definition host_tail (sep : charset) : regex :=
  RSeq (RChar (CsLit 46))
    (RLit (lit "googleapis") (RSeq (RChar sep) (RLit (lit "com") REol))).

Definition host_pattern (sep : charset) : regex :=
  RSeq RBol (RSeq (RGroup (RPlus CsWord)) (host_tail sep)).

(** ** A library and a world to run the integration in *)

(** The functions of a small RPC library. *)
Definition demo_ext (id : nat) (this : value) (args : list value)
    (h : list obj) : result value * list obj :=
  match id with
  | 0 => (* starts a call: the handle is a new event emitter *)
      (Ok (VRef (length h)), h ++ [mkObj (VRef 0) [] None [] None])
  | 1 => (* returns its receiver *)
      (Ok this, h)
  | 2 => (* fails *)
      (Throw (VError (lit "UNAVAILABLE")), h)
  | 3 => (* returns no handle *)
      (Ok VNull, h)
  | 4 => (* [createStub]: a promise of the stub *)
      (Ok (VRef (length h)), h ++ [mkObj VBuiltinProto [] None [] None])
  | _ => (Ok VUndefined, h)
  end.

Definition demo_method (id : nat) (requestStream responseStream : bool)
    (originalName : string) : obj :=
  mkObj VBuiltinProto
    [(lit "requestStream", mkProp true (VBool requestStream));
     (lit "responseStream", mkProp true (VBool responseStream));
     (lit "originalName", mkProp true (VStr (lit originalName)))]
    (Some (CExt id)) [] None.

Definition demo_heap : list obj :=
  [ (* 0: the prototype of the event emitters *)
    mkObj VNull [(lit "on", mkProp false (VRef 1))] None [] None;
    (* 1: [on] *)
    function_obj COn;
    (* 2 to 6: the methods of the service *)
    demo_method 0 false false "Echo";
    demo_method 0 false true "Watch";
    demo_method 1 false false "WhoAmI";
    demo_method 2 false false "Fail";
    demo_method 3 false false "Ping";
    (* 7: the prototype of the stub *)
    mkObj VNull
      [(lit "echo", mkProp true (VRef 2));
       (lit "watch", mkProp true (VRef 3));
       (lit "whoami", mkProp true (VRef 4));
       (lit "fail", mkProp true (VRef 5));
       (lit "ping", mkProp true (VRef 6));
       (lit "deadline", mkProp true (VStr (lit "5s")))]
      None [] None;
    (* 8: the stub *)
    mkObj (VRef 7) [] None [] None;
    (* 9: [createStub] of the library *)
    function_obj (CExt 4);
    (* 10: [GrpcClient.prototype] *)
    mkObj VNull [(lit "createStub", mkProp true (VRef 9))] None [] None;
    (* 11: [GrpcClient] *)
    mkObj VBuiltinProto [(lit "prototype", mkProp false (VRef 10))]
      (Some (CExt 5)) [] None;
    (* 12: the module *)
    mkObj VNull [(lit "GrpcClient", mkProp true (VRef 11))] None [] None;
    (* 13: options with a service path *)
    mkObj VNull
      [(lit "servicePath", mkProp true (VStr (lit "pubsub.googleapis.com")))]
      None [] None;
    (* 14: options without *)
    mkObj VNull [] None [] None ].

(** The library is installed, and the scope of client 7 has the
    transaction 1. *)
Definition demo_world : world :=
  mkWorld demo_heap {[ 7 := 1 ]} [] {[ lit "google-gax" := Ok (VRef 12) ]}.

(** The same with no library to load. *)
Definition demo_world_no_library : world :=
  mkWorld demo_heap {[ 7 := 1 ]} [] ∅.

(** The call handle that function 0 of the library returns. *)
Definition demo_handle : obj := mkObj (VRef 0) [] None [] None.

(** The world after [fillGrpcFunction] on the methods [echo], [whoami],
    [fail] and [ping] of the stub, for client 7 and the service [pubsub];
    the wrapper is object 15. *)
Definition demo_wrapped : world :=
  wrapped (Some 7) 8 2 (lit "pubsub") (lit "echo") demo_world.

Definition demo_wrapped_whoami : world :=
  wrapped (Some 7) 8 4 (lit "pubsub") (lit "whoami") demo_world.

Definition demo_wrapped_fail : world :=
  wrapped (Some 7) 8 5 (lit "pubsub") (lit "fail") demo_world.

Definition demo_wrapped_ping : world :=
  wrapped (Some 7) 8 6 (lit "pubsub") (lit "ping") demo_world.

(** The world after the original [echo] has returned its handle, object
    16, and after the wrapper has instrumented the handle. *)
Definition demo_echoed : world :=
  set_heap (heap demo_wrapped ++ [demo_handle]) demo_wrapped.

Definition demo_instrumented : world :=
  instrumented 7 (lit "unary call echo") (lit "gcloud.grpc.pubsub") 16
    demo_echoed.

(** The world after [install] for client 7; the wrapper of [createStub] is
    object 15. *)
Definition demo_installed : world :=
  snd (snd (install (constructor None) 7 demo_world)).

(** The world after a call of the wrapper of [createStub] with the options
    of object 13: the promise of the original is object 16, the promise of
    the wrapper object 17. *)
Definition demo_awaiting : world :=
  snd (call demo_ext 2 (VRef 15) (VRef 14) [VUndefined; VRef 13]
         demo_installed).

(** A world where [createStub] is the function that fails, wrapped as
    object 15. *)
Definition demo_failing_create : world :=
  snd (_wrapCreateStub (mkGoogleCloudGrpc (Some 7) false) (VRef 5) demo_world).

(** A world where [createStub] is a function that returns the promise it
    is called on, wrapped as object 18; the promise at 17 is pending on
    the promise at 16. *)
Definition demo_following_create : world :=
  snd (_wrapCreateStub (mkGoogleCloudGrpc (Some 7) false) (VRef 4)
         demo_awaiting).

(** The same after a call of the wrapper on the promise at 17, without
    options: the promise of the wrapper is object 19. *)
Definition demo_following : world :=
  set_heap (heap demo_following_create ++ [promise_obj (AResolved (VRef 17))])
    demo_following_create.

(** ** Relations between worlds, and more worlds to run in *)

(** The objects of the world agree but for the properties of the stub
    named in [names]; nothing else of the world differs. *)
Definition agree_but (stub : loc) (names : list jsstring) (w w' : world)
    : Prop :=
  spans w' = spans w /\ scopes w' = scopes w /\ modules w' = modules w /\
  length (heap w) <= length (heap w') /\
  (forall l o, l <> stub -> heap w !! l = Some o -> heap w' !! l = Some o) /\
  (forall o, heap w !! stub = Some o ->
     exists o', heap w' !! stub = Some o' /\
       proto o' = proto o /\ code o' = code o /\
       listeners o' = listeners o /\ promise o' = promise o /\
       forall key, key ∉ names -> assoc key (props o') = assoc key (props o)).

(** The method [m], a function with both flags its own and false, is
    what the property [name] of the stub holds, through the prototype
    [p]. *)
Definition unary_on_prototype (w : world) (stub p : loc) (name : jsstring)
    (m : loc) : Prop :=
  p <> stub /\ m <> stub /\
  exists os op om e req res,
    heap w !! stub = Some os /\ proto os = VRef p /\
    assoc name (props os) = None /\
    heap w !! p = Some op /\
    assoc name (props op) = Some (mkProp e (VRef m)) /\
    heap w !! m = Some om /\ is_Some (code om) /\
    assoc (lit "requestStream") (props om) = Some req /\
    truthy (pvalue req) = false /\
    assoc (lit "responseStream") (props om) = Some res /\
    truthy (pvalue res) = false.

(** The property [name] of the stub is its own and holds a wrapper of
    [m]. *)
Definition wrapper_on_stub (w : world) (client : option nat) (stub : loc)
    (sid name : jsstring) (m : loc) : Prop :=
  exists os n,
    heap w !! stub = Some os /\
    pvalue <$> assoc name (props os) = Some (VRef n) /\
    n <> stub /\
    closure_of (heap w) (VRef n)
    = Some (CGrpcWrapper (VRef m) client (VRef stub) sid name
              (lit "unary call")).

(** The world after [install] has patched [createStub] on the prototype
    at [lp]: the wrapper of [orig] is a new function, and the property of
    the prototype holds it. *)
Definition patched (client : nat) (lp : loc) (orig : value) (w : world)
    : world :=
  set_heap
    (alter (set_own (lit "createStub") (VRef (length (heap w)))) lp
       (heap w ++ [function_obj (CCreateStubWrapper orig (Some client))]))
    w.

(** The status event a given number of times in a row. *)
Fixpoint emit_times
    (ext : nat -> value -> list value -> list obj -> result value * list obj)
    (fuel k : nat) (emitter : value) (event : jsstring)
    (args : list value) : M unit :=
  match k with
  | 0 => ret tt
  | S k' =>
      emit ext fuel emitter event args ;;
      emit_times ext fuel k' emitter event args
  end.

(** The stub whose prototype has an [on] that fails, with [whoami]
    wrapped: the method returns the stub itself as its handle. *)
Definition demo_on_throws : world :=
  wrapped (Some 7) 8 4 (lit "pubsub") (lit "whoami")
    (set_heap (alter (set_own (lit "on") (VRef 5)) 7 demo_heap) demo_world).

(** The world after a second call of the wrapped [echo]: its handle is
    object 18. *)
Definition demo_echoed_again : world :=
  set_heap (heap demo_instrumented ++ [demo_handle]) demo_instrumented.

(** [echo] wrapped twice; the outer wrapper is object 16. *)
Definition demo_wrapped_twice : world :=
  wrapped (Some 7) 8 15 (lit "pubsub") (lit "echo") demo_wrapped.

(** * Properties *)

(** ** Strings and patterns *)

Lemma str_eqb_eq (a b : jsstring) : str_eqb a b = true <-> a = b.
Proof.
  revert b. induction a as [|x a IH]; intros [|y b]; simpl; try easy.
  rewrite andb_true_iff, N.eqb_eq, IH. split.
  - intros [-> ->]. reflexivity.
  - intros H. injection H as -> ->. auto.
Qed.

Lemma str_eqb_refl (a : jsstring) : str_eqb a a = true.
Proof. apply str_eqb_eq. reflexivity. Qed.

Lemma word_not_dot (c : N) : is_word c = true -> N.eqb c 46 = false.
Proof.
  unfold is_word. intros H. apply N.eqb_neq. intros ->. discriminate H.
Qed.

(** A string splits into its longest prefix of word characters and a rest
    that does not begin with one. *)
Lemma word_prefix (s : jsstring) :
  exists w rest, s = w ++ rest /\ Forall (fun c => is_word c = true) w /\
    (forall c r, rest = c :: r -> is_word c = false).
Proof.
  induction s as [|a s (w & rest & -> & Hw & Hrest)].
  - exists [], []. repeat split; [constructor | discriminate].
  - destruct (is_word a) eqn:Ha.
    + exists (a :: w), rest. repeat split; [constructor; assumption | assumption].
    + exists [], (a :: w ++ rest). repeat split; [constructor |].
      intros c r [= <- _]. assumption.
Qed.

Lemma plus_greedy_none (cs : charset) (rest : jsstring) e cap c :
  (forall ch r, rest = ch :: r -> cs_mem cs ch = false) ->
  plus_greedy cs rest e cap c = None.
Proof.
  destruct rest as [|ch r]; simpl; [reflexivity|].
  intros H. rewrite (H ch r eq_refl). reflexivity.
Qed.

Lemma plus_greedy_cons (cs : charset) ch (rest : jsstring) e cap c :
  plus_greedy cs (ch :: rest) e cap c =
  if cs_mem cs ch then
    match plus_greedy cs rest (S e) cap c with
    | Some y => Some y
    | None => c (mkState (S e) rest cap)
    end
  else None.
Proof. reflexivity. Qed.

(** On a run of the class followed by something else, a continuation that
    cannot start inside the run sees the whole run consumed. *)
Lemma plus_greedy_run (cs : charset) (w rest : jsstring) e cap
    (c : Continuation) :
  w <> [] ->
  Forall (fun ch => cs_mem cs ch = true) w ->
  (forall ch r, rest = ch :: r -> cs_mem cs ch = false) ->
  (forall e' ch r, cs_mem cs ch = true -> c (mkState e' (ch :: r) cap) = None) ->
  plus_greedy cs (w ++ rest) e cap c = c (mkState (e + length w) rest cap).
Proof.
  intros Hne Hw Hrest Hc. revert e.
  induction w as [|a w IH]; [congruence|]. intros e.
  inversion Hw as [|? ? Ha Hw']; subst.
  change ((a :: w) ++ rest) with (a :: (w ++ rest)).
  rewrite plus_greedy_cons, Ha.
  destruct w as [|b w].
  - simpl app. rewrite plus_greedy_none by assumption.
    f_equal. f_equal. simpl. lia.
  - rewrite IH by (assumption || discriminate).
    replace (S e + length (b :: w)) with (e + length (a :: b :: w))
      by (simpl; lia).
    destruct (c _) eqn:Hsome; [reflexivity|].
    inversion Hw'; subst. apply Hc. assumption.
Qed.

Lemma exec_from_bol (r : regex) (rest : jsstring) (i : nat) :
  exec_from (RSeq RBol r) rest (S i) = None.
Proof.
  revert i. induction rest as [|a rest IH]; intros i; simpl; [reflexivity|].
  apply IH.
Qed.

Lemma str_match_bol (r : regex) (s : jsstring) :
  str_match s (RSeq RBol r) = matcher r (mkState 0 s None) Some.
Proof.
  unfold str_match. destruct s as [|a s]; simpl.
  - destruct (matcher r _ _); reflexivity.
  - destruct (matcher r _ _); [reflexivity|]. apply exec_from_bol.
Qed.

Ltac step_literal H :=
  match type of H with
  | match ?r with [] => None | _ :: _ => _ end = Some _ =>
      destruct r; [discriminate H|]
  | (if N.eqb ?c ?d then _ else _) = Some _ =>
      destruct (N.eqb_spec c d); [subst c | discriminate H]
  end.

Lemma host_tail_sound (sep : charset) e rest cap m :
  matcher (host_tail sep) (mkState e rest cap) Some = Some m ->
  exists ch, rest = 46%N :: lit "googleapis" ++ ch :: lit "com" /\
    cs_mem sep ch = true /\ capture1 m = cap.
Proof.
  intros H. cbn in H.
  do 22 step_literal H.
  step_literal H.
  destruct (cs_mem sep n) eqn:Hsep; [|discriminate H].
  do 6 step_literal H.
  destruct rest; [|discriminate H].
  injection H as <-. exists n. repeat split. assumption.
Qed.

Lemma host_tail_complete (sep : charset) e ch cap :
  cs_mem sep ch = true ->
  matcher (host_tail sep)
    (mkState e (46%N :: lit "googleapis" ++ ch :: lit "com") cap) Some
  = Some (mkState (e + 15) [] cap).
Proof.
  intros H. cbn. rewrite H. do 2 f_equal. lia.
Qed.

Lemma host_tail_word (sep : charset) e ch r cap c :
  is_word ch = true ->
  matcher (host_tail sep) (mkState e (ch :: r) cap) c = None.
Proof.
  intros H. cbn. rewrite (word_not_dot _ H). reflexivity.
Qed.

(** A host name the pattern matches: a word, a dot, [googleapis], one
    character of the class [sep], [com]. *)
Definition host_name (sep : charset) (w : jsstring) (s : jsstring) : Prop :=
  w <> [] /\ Forall (fun c => is_word c = true) w /\
  exists ch, cs_mem sep ch = true /\
    s = w ++ 46%N :: lit "googleapis" ++ ch :: lit "com".

Lemma host_pattern_group (sep : charset) (s : jsstring) :
  str_match s (host_pattern sep) =
  plus_greedy CsWord s 0 None (fun y =>
    matcher (host_tail sep)
      (mkState (endIndex y) (remaining y) (Some (take (endIndex y - 0) s)))
      Some).
Proof. unfold host_pattern. rewrite str_match_bol. reflexivity. Qed.

Lemma host_pattern_complete (sep : charset) (w s : jsstring) :
  host_name sep w s ->
  str_match s (host_pattern sep) = Some (mkState (length w + 15) [] (Some w)).
Proof.
  intros (Hne & Hw & ch & Hch & ->).
  rewrite host_pattern_group.
  rewrite plus_greedy_run; try assumption.
  - cbn [endIndex remaining]. rewrite Nat.sub_0_r, Nat.add_0_l.
    rewrite take_app_length. apply host_tail_complete. assumption.
  - intros c r [= <- _]. reflexivity.
  - intros e' c r Hc. cbn [endIndex remaining].
    apply host_tail_word. assumption.
Qed.

Lemma host_pattern_sound (sep : charset) (s : jsstring) m :
  str_match s (host_pattern sep) = Some m ->
  exists w, host_name sep w s /\ capture1 m = Some w.
Proof.
  rewrite host_pattern_group.
  destruct (word_prefix s) as (w & rest & -> & Hw & Hrest).
  destruct w as [|a w].
  - rewrite plus_greedy_none by assumption. discriminate.
  - rewrite plus_greedy_run; try assumption; try discriminate.
    + cbn [endIndex remaining]. rewrite Nat.sub_0_r, Nat.add_0_l.
      rewrite take_app_length. intros H.
      apply host_tail_sound in H as (ch & -> & Hch & Hcap).
      exists (a :: w). split; [|assumption].
      split; [discriminate|]. split; [assumption|]. exists ch. auto.
    + intros e' c r Hc. cbn [endIndex remaining].
      apply host_tail_word. assumption.
Qed.

Lemma service_pattern_host : service_pattern = host_pattern CsDot.
Proof. reflexivity. Qed.

Lemma spec_service_pattern_host : spec_service_pattern = host_pattern (CsLit 46).
Proof. reflexivity. Qed.

(** Group 1 takes part in every match of the pattern of
    [identifyService]. *)
Lemma service_pattern_capture (s : jsstring) m :
  str_match s service_pattern = Some m -> is_Some (capture1 m).
Proof.
  rewrite service_pattern_host. intros H.
  apply host_pattern_sound in H as (w & _ & ->). eexists. reflexivity.
Qed.

Lemma host_name_dot (w s : jsstring) :
  host_name (CsLit 46) w s -> host_name CsDot w s.
Proof.
  intros (Hne & Hw & ch & Hch & ->). repeat split; try assumption.
  exists ch. split; [|reflexivity].
  simpl in Hch. apply N.eqb_eq in Hch. subst ch. reflexivity.
Qed.

(** C5: a service path that matches [^\w+\.googleapis\.com$] has the
    captured prefix of word characters as its service identifier. *)
Theorem identifyService_matching (servicePath : jsstring) m :
  str_match servicePath spec_service_pattern = Some m ->
  exists prefix,
    capture1 m = Some prefix /\
    servicePath = prefix ++ lit ".googleapis.com" /\
    identifyService servicePath = prefix.
Proof.
  rewrite spec_service_pattern_host. intros H.
  apply host_pattern_sound in H as (w & Hhost & Hcap).
  exists w. split; [assumption|]. split.
  - destruct Hhost as (_ & _ & ch & Hch & ->).
    simpl in Hch. apply N.eqb_eq in Hch. subst ch. reflexivity.
  - unfold identifyService. rewrite service_pattern_host.
    rewrite (host_pattern_complete CsDot w) by (apply host_name_dot; assumption).
    reflexivity.
Qed.

Lemma identifyService_matching_witness :
  str_match (lit "pubsub.googleapis.com") spec_service_pattern
    = Some (mkState 21 [] (Some (lit "pubsub"))) /\
  exists prefix,
    capture1 (mkState 21 [] (Some (lit "pubsub"))) = Some prefix /\
    lit "pubsub.googleapis.com" = prefix ++ lit ".googleapis.com" /\
    identifyService (lit "pubsub.googleapis.com") = prefix.
Proof.
  split; [reflexivity|].
  apply (identifyService_matching (lit "pubsub.googleapis.com")). reflexivity.
Defined.

(** C6, where the code departs from it: [pubsub.googleapisXcom] does not
    match [^\w+\.googleapis\.com$], and its service identifier is [pubsub],
    not the path itself: the dot before [com] in the pattern of
    [identifyService] stands for any character. *)
Theorem identifyService_unescaped_dot :
  str_match (lit "pubsub.googleapisXcom") spec_service_pattern = None /\
  identifyService (lit "pubsub.googleapisXcom") = lit "pubsub" /\
  identifyService (lit "pubsub.googleapisXcom") <> lit "pubsub.googleapisXcom".
Proof. split; [reflexivity | split; [reflexivity | discriminate]]. Qed.

(** A path that the pattern of the code does not match is its own service
    identifier. *)
Lemma identifyService_not_matching (servicePath : jsstring) :
  str_match servicePath service_pattern = None ->
  identifyService servicePath = servicePath.
Proof. unfold identifyService. intros ->. reflexivity. Qed.

Example identifyService_pubsub :
  identifyService (lit "pubsub.googleapis.com") = lit "pubsub".
Proof. reflexivity. Qed.

Example identifyService_custom :
  identifyService (lit "custom.endpoint.example") = lit "custom.endpoint.example".
Proof. reflexivity. Qed.

(** ** Registration *)

Lemma require_world (name : jsstring) (w : world) r w' :
  require name w = (r, w') -> w' = w.
Proof.
  unfold require, throw. destruct (modules w !! name); intros [= _ <-]; reflexivity.
Qed.

Lemma install_load_failure (self : GoogleCloudGrpc) (client : nat) (w : world) e :
  require (lit "google-gax") w = (Throw e, w) ->
  install self client w =
  (mkGoogleCloudGrpc (Some client) (_optional self),
   if _optional self then (Ok tt, w) else (Throw e, w)).
Proof.
  intros H. unfold install, try_catch, bind. rewrite H. simpl.
  destruct (_optional self); reflexivity.
Qed.

(** C4: when the library cannot be loaded, [install] of an instance
    constructed with [optional: true] returns and leaves the world as it
    was, the library and every stub untouched; [install] of an instance
    constructed with [optional: false], with no [optional] or with no
    options throws the failure of the load. *)
Theorem install_library_unavailable (client : nat) (w : world) e :
  require (lit "google-gax") w = (Throw e, w) ->
  snd (install (constructor (Some (mkOptions (Some true)))) client w)
    = (Ok tt, w) /\
  snd (install (constructor (Some (mkOptions (Some false)))) client w)
    = (Throw e, w) /\
  snd (install (constructor (Some (mkOptions None))) client w)
    = (Throw e, w) /\
  snd (install (constructor None) client w) = (Throw e, w).
Proof.
  intros H. rewrite !(install_load_failure _ _ _ _ H). auto.
Qed.

(** C9, as the code has it: a suppressed failure of the load leaves the
    world as it was and raises nothing, and of the instance it changes the
    client, which [install] stores before it loads the library. *)
Theorem install_suppressed_failure (self : GoogleCloudGrpc) (client : nat)
    (w : world) e :
  _optional self = true ->
  require (lit "google-gax") w = (Throw e, w) ->
  install self client w = (mkGoogleCloudGrpc (Some client) true, (Ok tt, w)).
Proof.
  intros Hopt H. rewrite (install_load_failure _ _ _ _ H), Hopt. reflexivity.
Qed.

(** ** Heap lemmas *)

Lemma assoc_upsert (key : jsstring) (x : value) (l : list (jsstring * prop)) :
  exists e, assoc key (upsert key x l) = Some (mkProp e x).
Proof.
  induction l as [|[k p] l [e IH]]; simpl.
  - rewrite str_eqb_refl. eauto.
  - destruct (str_eqb k key) eqn:Hk; simpl; rewrite Hk; eauto.
Qed.

Lemma closure_of_app (h : list obj) (o : obj) (v : value) c :
  closure_of h v = Some c -> closure_of (h ++ [o]) v = Some c.
Proof.
  destruct v; simpl; try discriminate.
  destruct (h !! l) as [o'|] eqn:Hl; simpl; [|discriminate].
  intros Hc. rewrite (lookup_app_l_Some _ _ _ _ Hl). simpl. assumption.
Qed.

Lemma closure_of_alloc (h : list obj) (c : closure) :
  closure_of (h ++ [function_obj c]) (VRef (length h)) = Some c.
Proof.
  simpl. rewrite list_lookup_middle by reflexivity. reflexivity.
Qed.

Lemma closure_of_alter (f : obj -> obj) (l : loc) (h : list obj) (v : value) :
  (forall o, code (f o) = code o) ->
  closure_of (alter f l h) v = closure_of h v.
Proof.
  intros Hf. destruct v; simpl; try reflexivity.
  destruct (decide (l = l0)) as [->|Hne].
  - rewrite list_lookup_alter_eq. destruct (h !! l0); simpl; [apply Hf | reflexivity].
  - rewrite list_lookup_alter_ne by assumption. reflexivity.
Qed.

Section CallProperties.

Variable ext : nat -> value -> list value -> list obj -> result value * list obj.

Lemma call_wrapper (fuel : nat) (f this : value) (args : list value)
    (w : world) orig client stub sid name ct :
  closure_of (heap w) f = Some (CGrpcWrapper orig client stub sid name ct) ->
  call ext (S fuel) f this args w =
  grpc_wrapper (call ext fuel) orig client stub sid name ct this args w.
Proof. intros H. simpl. rewrite H. reflexivity. Qed.

Lemma call_returns_fuel (fuel : nat) (f this : value) (args : list value)
    (w : world) r w' :
  call ext fuel f this args w = (r, w') -> r <> OutOfFuel ->
  exists n, fuel = S n.
Proof.
  destruct fuel; [|eauto]. simpl. intros [= <- _] H. congruence.
Qed.

Lemma get_optional_member (v : value) (key : jsstring) (w : world) :
  get_optional v key w = (Ok (optional_member v key (heap w)), w).
Proof. destruct v; reflexivity. Qed.

Lemma wrapper_handle_without_on_aux (fuel : nat) (f this : value)
    (args : list value) (w : world) orig client stub sid name ct r w1 :
  closure_of (heap w) f = Some (CGrpcWrapper orig client stub sid name ct) ->
  call ext fuel orig stub args w = (Ok r, w1) ->
  closure_of (heap w1) (optional_member r (lit "on") (heap w1)) = None ->
  call ext (S fuel) f this args w = (Ok r, w1).
Proof.
  intros Hf Horig Hnone. rewrite (call_wrapper _ _ _ _ _ _ _ _ _ _ _ Hf).
  unfold grpc_wrapper, bind. rewrite Horig, get_optional_member.
  unfold is_function, ret. rewrite Hnone.
  rewrite bool_decide_eq_false_2 by (intros [? ?]; discriminate).
  reflexivity.
Qed.

(** C7: when the handle that the original method returns has no callable
    [on], [null] and [undefined] included, the wrapper returns it and
    leaves the world as the original left it: no span, no listener, no
    error. *)
Theorem wrapper_handle_without_on (fuel : nat) (f this : value)
    (args : list value) (w : world) orig client stub sid name ct r w1 :
  closure_of (heap w) f = Some (CGrpcWrapper orig client stub sid name ct) ->
  call ext fuel orig stub args w = (Ok r, w1) ->
  closure_of (heap w1) (optional_member r (lit "on") (heap w1)) = None ->
  call ext (S fuel) f this args w = (Ok r, w1).
Proof. apply wrapper_handle_without_on_aux. Qed.

Lemma wrapper_throws (fuel : nat) (f this : value) (args : list value)
    (w : world) orig client stub sid name ct e w1 :
  closure_of (heap w) f = Some (CGrpcWrapper orig client stub sid name ct) ->
  call ext fuel orig stub args w = (Throw e, w1) ->
  call ext (S fuel) f this args w = (Throw e, w1).
Proof.
  intros Hf Horig. rewrite (call_wrapper _ _ _ _ _ _ _ _ _ _ _ Hf).
  unfold grpc_wrapper, bind. rewrite Horig. reflexivity.
Qed.

(** The subscription of lines 122-126 on a handle that is an event
    emitter. *)
Lemma subscribe_status (n : nat) (handle : loc) (span : option nat)
    (w : world) :
  closure_of (heap w)
    (lookup_chain (S (length (heap w))) (heap w) (VRef handle) (lit "on"))
    = Some COn ->
  (do on <- get (VRef handle) (lit "on");
   do listener <- alloc_function (CStatusListener span);
   call ext (S n) on (VRef handle) [VStr (lit "status"); listener] ;;
   ret (VRef handle)) w =
  (Ok (VRef handle),
   set_heap (alter (add_listener (lit "status") (VRef (length (heap w))))
               handle (heap w ++ [function_obj (CStatusListener span)])) w).
Proof.
  intros Hon.
  unfold bind, get, alloc_function, alloc, ret.
  cbn [call set_heap heap].
  rewrite (closure_of_app _ _ _ _ Hon).
  unfold emitter_on. cbn [lookup list_lookup default heap set_heap].
  rewrite closure_of_alloc.
  rewrite bool_decide_eq_true_2 by eauto.
  reflexivity.
Qed.

(** The wrapper on a handle that is an event emitter. *)
Lemma wrapper_instruments (fuel : nat) (f this : value) (args : list value)
    (w : world) orig client stub sid name ct handle w1 :
  closure_of (heap w) f
    = Some (CGrpcWrapper orig (Some client) stub sid name ct) ->
  call ext fuel orig stub args w = (Ok (VRef handle), w1) ->
  closure_of (heap w1)
    (lookup_chain (S (length (heap w1))) (heap w1) (VRef handle) (lit "on"))
    = Some COn ->
  call ext (S fuel) f this args w =
  (Ok (VRef handle),
   instrumented client (ct ++ lit " " ++ name) (lit "gcloud.grpc." ++ sid)
     handle w1).
Proof.
  intros Hf Horig Hcode.
  destruct (call_returns_fuel _ _ _ _ _ _ _ Horig) as [n ->]; [discriminate|].
  rewrite (call_wrapper _ _ _ _ _ _ _ _ _ _ _ Hf).
  unfold grpc_wrapper, bind at 1. rewrite Horig.
  unfold bind at 1. unfold get_optional, get at 1, ret at 1.
  unfold bind at 1. unfold is_function, ret at 1. rewrite Hcode.
  rewrite bool_decide_eq_true_2 by eauto. cbn [negb].
  unfold instrumented, started.
  unfold bind at 1. unfold getTransaction, ret at 1.
  destruct (scopes w1 !! client) as [t|].
  - unfold bind at 1. unfold bind at 1. unfold startChild, ret at 1 2.
    rewrite subscribe_status by exact Hcode. reflexivity.
  - unfold bind at 1. unfold ret at 1.
    rewrite subscribe_status by exact Hcode.
    rewrite app_nil_r. destruct w1; reflexivity.
Qed.

(** *** The status event *)

Lemma alter_last {A} (f : A -> A) (l : list A) (x : A) :
  alter f (length l) (l ++ [x]) = l ++ [f x].
Proof. induction l as [|a l IH]; simpl; [reflexivity | f_equal; exact IH]. Qed.

Lemma instrumented_handle (client : nat) (d o : jsstring) (handle : loc)
    (w : world) (oh : obj) :
  heap w !! handle = Some oh ->
  heap (instrumented client d o handle w) !! handle
  = Some (add_listener (lit "status") (VRef (length (heap w))) oh).
Proof.
  intros H. unfold instrumented. cbn [heap].
  rewrite list_lookup_alter_eq, (lookup_app_l_Some _ _ _ _ H). reflexivity.
Qed.

Lemma instrumented_listener (client : nat) (d o : jsstring) (handle : loc)
    (w : world) :
  closure_of (heap (instrumented client d o handle w)) (VRef (length (heap w)))
  = Some (CStatusListener
            (match scopes w !! client with
             | Some _ => Some (length (spans w))
             | None => None
             end)).
Proof.
  unfold instrumented. cbn [heap].
  rewrite closure_of_alter by reflexivity. apply closure_of_alloc.
Qed.

(** An event other than the status event reaches no listener of the
    instrumentation. *)
Lemma emit_other_instrumented (fuel : nat) (client : nat) (d o : jsstring)
    (handle : loc) (w : world) (oh : obj) (event : jsstring)
    (args : list value) :
  heap w !! handle = Some oh -> listeners oh = [] ->
  event <> lit "status" ->
  emit ext fuel (VRef handle) event args (instrumented client d o handle w)
  = (Ok tt, instrumented client d o handle w).
Proof.
  intros Hh Hl Hev. unfold emit.
  rewrite (instrumented_handle _ _ _ _ _ _ Hh).
  unfold add_listener. cbn [listeners]. rewrite Hl. cbn [app].
  rewrite filter_cons_False; [reflexivity|].
  cbn [fst]. intros Heq. apply str_eqb_eq in Heq. congruence.
Qed.

(** The status event finishes the span that the call started. *)
Lemma emit_status_instrumented (fuel : nat) (client : nat) (d o : jsstring)
    (handle : loc) (w : world) (oh : obj) (args : list value) :
  heap w !! handle = Some oh -> listeners oh = [] ->
  emit ext (S fuel) (VRef handle) (lit "status") args
    (instrumented client d o handle w)
  = (Ok tt,
     set_spans (spans w ++ map finish_span (started client d o w))
       (instrumented client d o handle w)).
Proof.
  intros Hh Hl. unfold emit.
  rewrite (instrumented_handle _ _ _ _ _ _ Hh).
  unfold add_listener. cbn [listeners]. rewrite Hl. cbn [app].
  rewrite filter_cons_True by reflexivity. rewrite filter_nil.
  cbn [for_of fst snd]. unfold bind at 1. unfold bind at 1.
  cbn [call]. rewrite instrumented_listener.
  unfold instrumented, started. destruct (scopes w !! client) as [t|].
  - unfold status_listener, bind, finish, ret, set_spans. cbn [spans heap scopes modules].
    rewrite alter_last. reflexivity.
  - reflexivity.
Qed.

(** *** Wrapping a method *)

Lemma lookup_chain_own (n : nat) (h : list obj) (l : loc) (o : obj)
    (key : jsstring) (p : prop) :
  h !! l = Some o -> assoc key (props o) = Some p ->
  lookup_chain (S n) h (VRef l) key = pvalue p.
Proof. intros Hl Hp. simpl. rewrite Hl, Hp. reflexivity. Qed.

Lemma lookup_chain_ref (n : nat) (h : list obj) (l : loc) (key : jsstring)
    (m : loc) :
  lookup_chain n h (VRef l) key = VRef m -> is_Some (h !! l).
Proof.
  destruct n; simpl; [discriminate|].
  destruct (h !! l); [eauto | discriminate].
Qed.

Lemma fillGrpcFunction_unary (client : option nat) (stub method : loc)
    (sid name : jsstring) (w : world) :
  lookup_chain (S (length (heap w))) (heap w) (VRef stub) name = VRef method ->
  is_Some (closure_of (heap w) (VRef method)) ->
  truthy (lookup_chain (S (length (heap w))) (heap w) (VRef method)
            (lit "requestStream")) = false ->
  truthy (lookup_chain (S (length (heap w))) (heap w) (VRef method)
            (lit "responseStream")) = false ->
  fillGrpcFunction client (VRef stub) sid name w
  = (Ok tt, wrapped client stub method sid name w).
Proof.
  intros Hm Hf Hreq Hres.
  unfold fillGrpcFunction, bind at 1. unfold get at 1, ret at 1. rewrite Hm.
  unfold bind at 1. unfold is_function at 1, ret at 1.
  rewrite bool_decide_eq_true_2 by assumption. cbn [negb].
  unfold bind at 1. unfold get at 1, ret at 1.
  unfold bind at 1. unfold get at 1, ret at 1.
  unfold callTypeOf. rewrite Hreq, Hres. cbn [negb andb].
  rewrite str_eqb_refl. cbn [negb].
  unfold fill, bind, get, ret. rewrite Hm. reflexivity.
Qed.

Lemma wrapped_method (client : option nat) (stub method : loc)
    (sid name : jsstring) (w : world) :
  is_Some (heap w !! stub) ->
  lookup_chain (S (length (heap (wrapped client stub method sid name w))))
    (heap (wrapped client stub method sid name w)) (VRef stub) name
  = VRef (length (heap w)).
Proof.
  intros [o Ho]. unfold wrapped. cbn [heap set_heap].
  destruct (assoc_upsert name (VRef (length (heap w))) (props o)) as [e He].
  assert (Hs : alter (set_own name (VRef (length (heap w)))) stub
                 (heap w ++ [function_obj
                    (CGrpcWrapper (VRef method) client (VRef stub) sid name
                       (lit "unary call"))]) !! stub
               = Some (set_own name (VRef (length (heap w))) o)).
  { rewrite list_lookup_alter_eq, (lookup_app_l_Some _ _ _ _ Ho).
    reflexivity. }
  rewrite (lookup_chain_own _ _ _ _ _ _ Hs He). reflexivity.
Qed.

Lemma wrapped_wrapper (client : option nat) (stub method : loc)
    (sid name : jsstring) (w : world) :
  closure_of (heap (wrapped client stub method sid name w))
    (VRef (length (heap w)))
  = Some (CGrpcWrapper (VRef method) client (VRef stub) sid name
            (lit "unary call")).
Proof.
  unfold wrapped. cbn [heap set_heap].
  rewrite closure_of_alter by reflexivity. apply closure_of_alloc.
Qed.

Lemma wrapped_closure (client : option nat) (stub method : loc)
    (sid name : jsstring) (w : world) (v : value) c :
  closure_of (heap w) v = Some c ->
  closure_of (heap (wrapped client stub method sid name w)) v = Some c.
Proof.
  intros H. unfold wrapped. cbn [heap set_heap].
  rewrite closure_of_alter by reflexivity. apply closure_of_app. assumption.
Qed.

Lemma call_ext (fuel : nat) (f this : value) (args : list value) (w : world)
    (id : nat) :
  closure_of (heap w) f = Some (CExt id) ->
  call ext (S fuel) f this args w = ext_call ext id this args w.
Proof. intros H. simpl. rewrite H. reflexivity. Qed.

(** C1: a method of the stub with both flags false is wrapped, and a call
    of the wrapped method under a transaction starts one span, with the
    description ["unary call <methodName>"] and the operation
    ["gcloud.grpc.<serviceIdentifier>"], open when the call returns; no
    event but the status event closes it, and the status event closes it
    once.  Without a transaction no span is started.  The handle is the
    event emitter that the original returns, fresh of listeners. *)
Theorem unary_call_span (client : nat) (stub method : loc)
    (sid name : jsstring) (id : nat) (args : list value) (w : world)
    (handle : loc) (oh : obj) (h1 : list obj) :
  lookup_chain (S (length (heap w))) (heap w) (VRef stub) name = VRef method ->
  closure_of (heap w) (VRef method) = Some (CExt id) ->
  truthy (lookup_chain (S (length (heap w))) (heap w) (VRef method)
            (lit "requestStream")) = false ->
  truthy (lookup_chain (S (length (heap w))) (heap w) (VRef method)
            (lit "responseStream")) = false ->
  ext id (VRef stub) args (heap (wrapped (Some client) stub method sid name w))
    = (Ok (VRef handle), h1) ->
  h1 !! handle = Some oh ->
  listeners oh = [] ->
  closure_of h1 (lookup_chain (S (length h1)) h1 (VRef handle) (lit "on"))
    = Some COn ->
  let w1 := wrapped (Some client) stub method sid name w in
  let w2 := instrumented client (lit "unary call " ++ name)
              (lit "gcloud.grpc." ++ sid) handle (set_heap h1 w1) in
  fillGrpcFunction (Some client) (VRef stub) sid name w = (Ok tt, w1) /\
  (exists wrapper,
     get (VRef stub) name w1 = (Ok wrapper, w1) /\
     forall fuel this,
       call ext (S (S fuel)) wrapper this args w1 = (Ok (VRef handle), w2)) /\
  spans w2 = spans w ++ started client (lit "unary call " ++ name)
                          (lit "gcloud.grpc." ++ sid) w /\
  (forall fuel event a,
     event <> lit "status" ->
     emit ext fuel (VRef handle) event a w2 = (Ok tt, w2)) /\
  (forall fuel a,
     exists w3,
       emit ext (S fuel) (VRef handle) (lit "status") a w2 = (Ok tt, w3) /\
       spans w3 = spans w ++ map finish_span
                    (started client (lit "unary call " ++ name)
                       (lit "gcloud.grpc." ++ sid) w)).
Proof.
  intros Hm Hf Hreq Hres Hext Hh Hl Hon w1 w2.
  split; [apply fillGrpcFunction_unary; eauto|].
  split.
  - exists (VRef (length (heap w))). split.
    + unfold get, ret. subst w1. rewrite wrapped_method; [reflexivity|].
      eapply lookup_chain_ref. exact Hm.
    + intros fuel this. subst w2.
      apply (wrapper_instruments (S fuel) _ this args w1 (VRef method)
               client (VRef stub) sid name (lit "unary call") handle
               (set_heap h1 w1)).
      * apply wrapped_wrapper.
      * rewrite (call_ext fuel _ _ _ _ id)
          by (apply wrapped_closure; exact Hf).
        unfold ext_call. subst w1. rewrite Hext. reflexivity.
      * exact Hon.
  - split; [reflexivity|]. split.
    + intros fuel event a Hev. subst w2.
      apply (emit_other_instrumented _ _ _ _ _ _ oh); assumption.
    + intros fuel a. eexists. split.
      * subst w2. apply (emit_status_instrumented _ _ _ _ _ _ oh); assumption.
      * reflexivity.
Qed.

(** The four rows of the call type. *)
Lemma callTypeOf_table :
  callTypeOf (VBool false) (VBool false) = lit "unary call" /\
  callTypeOf (VBool true) (VBool false) = lit "client stream" /\
  callTypeOf (VBool false) (VBool true) = lit "server stream" /\
  callTypeOf (VBool true) (VBool true) = lit "bidi stream".
Proof. repeat split. Qed.

(** C2: [fillGrpcFunction] leaves the world as it is when the property is
    not callable, and when it is a method whose [requestStream] or
    [responseStream] is set: the property still holds the original, a call
    of it does what it did before, and the call of a method of the library
    starts no span, whatever the transaction. *)
Theorem non_unary_untouched (client : option nat) (stub : value)
    (sid name : jsstring) (w : world) :
  is_nullish stub = false ->
  closure_of (heap w)
    (lookup_chain (S (length (heap w))) (heap w) stub name) = None \/
  truthy (lookup_chain (S (length (heap w))) (heap w)
            (lookup_chain (S (length (heap w))) (heap w) stub name)
            (lit "requestStream")) = true \/
  truthy (lookup_chain (S (length (heap w))) (heap w)
            (lookup_chain (S (length (heap w))) (heap w) stub name)
            (lit "responseStream")) = true ->
  fillGrpcFunction client stub sid name w = (Ok tt, w) /\
  (forall fuel this args,
     call ext fuel
       (optional_member stub name
          (heap (snd (fillGrpcFunction client stub sid name w))))
       this args (snd (fillGrpcFunction client stub sid name w))
     = call ext fuel (optional_member stub name (heap w)) this args w) /\
  (forall id fuel this args,
     closure_of (heap w)
       (lookup_chain (S (length (heap w))) (heap w) stub name)
       = Some (CExt id) ->
     spans (snd (call ext fuel
                   (lookup_chain (S (length (heap w))) (heap w) stub name)
                   this args w)) = spans w).
Proof.
  intros Hstub Hcase.
  assert (Hfill : fillGrpcFunction client stub sid name w = (Ok tt, w)).
  { unfold fillGrpcFunction, bind at 1.
    assert (Hget : get stub name w
                   = (Ok (lookup_chain (S (length (heap w))) (heap w) stub name), w))
      by (destruct stub; try discriminate Hstub; reflexivity).
    rewrite Hget. clear Hget.
    set (method := lookup_chain (S (length (heap w))) (heap w) stub name) in *.
    unfold bind at 1. unfold is_function at 1, ret at 1.
    destruct (closure_of (heap w) method) as [c|] eqn:Hc.
    - rewrite bool_decide_eq_true_2 by eauto. cbn [negb].
      assert (Hflag : forall key, get method key w
                = (Ok (lookup_chain (S (length (heap w))) (heap w) method key), w))
        by (intros key; destruct method; try discriminate Hc; reflexivity).
      unfold bind at 1. rewrite Hflag. unfold bind at 1. rewrite Hflag.
      unfold callTypeOf.
      destruct Hcase as [Hn | [Hreq | Hres]]; [discriminate | |].
      + rewrite Hreq. cbn [negb andb].
        destruct (truthy (lookup_chain _ _ method (lit "responseStream")));
          reflexivity.
      + rewrite Hres.
        destruct (truthy (lookup_chain _ _ method (lit "requestStream")));
          reflexivity.
    - rewrite bool_decide_eq_false_2 by (intros [? ?]; discriminate).
      reflexivity. }
  split; [exact Hfill|]. split.
  - intros fuel this args. rewrite Hfill. reflexivity.
  - intros id fuel this args Hc. destruct fuel; [reflexivity|].
    rewrite (call_ext _ _ _ _ _ _ Hc). unfold ext_call.
    destruct (ext id this args (heap w)). reflexivity.
Qed.

(** *** Stub creation *)

Lemma call_createStub (fuel : nat) (f this : value) (args : list value)
    (w : world) origCreate client :
  closure_of (heap w) f = Some (CCreateStubWrapper origCreate client) ->
  call ext (S fuel) f this args w =
  (do st <- createStub_start (call ext fuel) origCreate client this args;
   alloc (promise_obj st)) w.
Proof. intros H. simpl. rewrite H. reflexivity. Qed.

Lemma createStub_start_absent (fuel : nat) origCreate client (this : value)
    (args : list value) (w : world) :
  is_nullish (servicePath_arg args (heap w)) = true ->
  createStub_start (call ext fuel) origCreate client this args w =
  match call ext fuel origCreate this args w with
  | (Ok r, w1) => (Ok (AResolved r), w1)
  | (Throw e, w1) => (Ok (ARejected e), w1)
  | (OutOfFuel, w1) => (OutOfFuel, w1)
  end.
Proof.
  intros Hsp. unfold createStub_start, async, try_catch, bind at 1.
  rewrite get_optional_member. fold (servicePath_arg args (heap w)).
  rewrite Hsp. cbn [orb]. unfold bind, ret.
  destruct (call ext fuel origCreate this args w) as [[r|e|] w1]; reflexivity.
Qed.

Lemma createStub_start_present (fuel : nat) origCreate client (this : value)
    (args : list value) (w : world) (s : jsstring) :
  servicePath_arg args (heap w) = VStr s ->
  createStub_start (call ext fuel) origCreate client this args w =
  match call ext fuel origCreate this args w with
  | (Ok p, w1) =>
      (Ok (AAwaiting p (KWrapMethods client (identifyService s))), w1)
  | (Throw e, w1) => (Ok (ARejected e), w1)
  | (OutOfFuel, w1) => (OutOfFuel, w1)
  end.
Proof.
  intros Hsp. unfold createStub_start, async, try_catch, bind at 1.
  rewrite get_optional_member. fold (servicePath_arg args (heap w)).
  rewrite Hsp. cbn [orb is_nullish identifyServiceOf]. unfold bind, ret.
  destruct (call ext fuel origCreate this args w) as [[r|e|] w1]; reflexivity.
Qed.

(** C3: without a [servicePath] in the options, the wrapper of
    [createStub] calls the original with its own receiver and arguments,
    and its promise is resolved with what the original returned; the world
    is the one the original left, with that promise added: no method of any
    stub is wrapped. *)
Theorem createStub_without_servicePath (fuel : nat) (f this : value)
    (args : list value) (w : world) origCreate client r w1 :
  closure_of (heap w) f = Some (CCreateStubWrapper origCreate client) ->
  is_nullish (servicePath_arg args (heap w)) = true ->
  call ext fuel origCreate this args w = (Ok r, w1) ->
  call ext (S fuel) f this args w =
    (Ok (VRef (length (heap w1))),
     set_heap (heap w1 ++ [promise_obj (AResolved r)]) w1) /\
  forall l o, heap w1 !! l = Some o ->
    (heap w1 ++ [promise_obj (AResolved r)]) !! l = Some o.
Proof.
  intros Hf Hsp Horig. split.
  - rewrite (call_createStub _ _ _ _ _ _ _ Hf). unfold bind at 1.
    rewrite createStub_start_absent by assumption. rewrite Horig.
    reflexivity.
  - intros l o. apply lookup_app_l_Some.
Qed.

Lemma resume_rejected (p : loc) (w : world) (o : obj) (v : value) (k : kont)
    (e : value) :
  heap w !! p = Some o -> promise o = Some (AAwaiting v k) ->
  resume p (Rejected e) w
  = (Ok tt, set_heap (alter (set_promise (ARejected e)) p (heap w)) w).
Proof.
  intros Hp Hst. unfold resume. rewrite Hp, Hst. destruct k. reflexivity.
Qed.

Lemma lookup_chain_app (h : list obj) (o : obj) (n : nat) (v : value)
    (key : jsstring) (x : loc) :
  lookup_chain n h v key = VRef x ->
  lookup_chain (S n) (h ++ [o]) v key = VRef x.
Proof.
  revert v. induction n as [|n IH]; intros v Hl; [discriminate Hl|].
  destruct v; try discriminate Hl.
  cbn [lookup_chain] in Hl. change (lookup_chain (S (S n)) (h ++ [o]) (VRef l) key)
    with (match (h ++ [o]) !! l with
          | Some ob =>
              match assoc key (props ob) with
              | Some p => pvalue p
              | None => lookup_chain (S n) (h ++ [o]) (proto ob) key
              end
          | None => VUndefined
          end).
  destruct (h !! l) as [ob|] eqn:Hob; [|discriminate Hl].
  rewrite (lookup_app_l_Some _ _ _ _ Hob).
  destruct (assoc key (props ob)); [exact Hl | apply IH; exact Hl].
Qed.

(** A promise-like stays one when the heap grows. *)
Lemma thenable_app (h : list obj) (o : obj) (v : value) :
  thenable h v = true -> thenable (h ++ [o]) v = true.
Proof.
  destruct v; try discriminate. unfold thenable.
  destruct (h !! l) as [ob|] eqn:Hob; [|discriminate].
  rewrite (lookup_app_l_Some _ _ _ _ Hob).
  intros H. apply orb_true_iff in H as [H | H]; apply orb_true_iff.
  - left. exact H.
  - right. apply bool_decide_eq_true in H as [c Hc].
    apply bool_decide_eq_true. exists c.
    destruct (lookup_chain (S (length h)) h (VRef l) (lit "then"))
      as [| | | |x| |] eqn:Hx; try discriminate Hc.
    rewrite length_app, Nat.add_1_r.
    rewrite (lookup_chain_app _ _ _ _ _ _ Hx).
    apply closure_of_app. exact Hc.
Qed.

Lemma adopt_thenable (l : loc) (w : world) (o : obj) (r : value)
    (settled : settlement) :
  heap w !! l = Some o -> promise o = Some (AResolved r) ->
  thenable (heap w) r = true ->
  adopt l settled w
  = (Ok tt,
     set_heap (alter (set_promise (settled_state settled)) l (heap w)) w).
Proof.
  intros Hl Hst Hr. unfold adopt. rewrite Hl, Hst, Hr. reflexivity.
Qed.

(** C8: what the original throws, the wrapper of a method throws, in the
    world the original left.  What the original [createStub] throws
    rejects the promise of its wrapper.  With a [servicePath], the promise
    of the wrapper awaits the promise that the original returned, and is
    rejected with the failure of that promise when it fails.  Without a
    [servicePath], the promise of the wrapper is resolved with the promise
    that the original returned: it is pending while that one is, and when
    that one settles it is rejected with its failure, or resolved with its
    value. *)
Theorem failures_propagate (fuel : nat) (f this : value) (args : list value)
    (w : world) :
  (forall orig client stub sid name ct e w1,
     closure_of (heap w) f = Some (CGrpcWrapper orig client stub sid name ct) ->
     call ext fuel orig stub args w = (Throw e, w1) ->
     call ext (S fuel) f this args w = (Throw e, w1)) /\
  (forall origCreate client e w1,
     closure_of (heap w) f = Some (CCreateStubWrapper origCreate client) ->
     is_nullish (servicePath_arg args (heap w)) = true \/
       (exists s, servicePath_arg args (heap w) = VStr s) ->
     call ext fuel origCreate this args w = (Throw e, w1) ->
     call ext (S fuel) f this args w =
       (Ok (VRef (length (heap w1))),
        set_heap (heap w1 ++ [promise_obj (ARejected e)]) w1)) /\
  (forall origCreate client s p w1,
     closure_of (heap w) f = Some (CCreateStubWrapper origCreate client) ->
     servicePath_arg args (heap w) = VStr s ->
     call ext fuel origCreate this args w = (Ok p, w1) ->
     call ext (S fuel) f this args w =
       (Ok (VRef (length (heap w1))),
        set_heap (heap w1 ++ [promise_obj
          (AAwaiting p (KWrapMethods client (identifyService s)))]) w1)) /\
  (forall l o v k e,
     heap w !! l = Some o -> promise o = Some (AAwaiting v k) ->
     resume l (Rejected e) w
     = (Ok tt, set_heap (alter (set_promise (ARejected e)) l (heap w)) w)) /\
  (forall origCreate client r w1,
     closure_of (heap w) f = Some (CCreateStubWrapper origCreate client) ->
     is_nullish (servicePath_arg args (heap w)) = true ->
     call ext fuel origCreate this args w = (Ok r, w1) ->
     thenable (heap w1) r = true ->
     call ext (S fuel) f this args w =
       (Ok (VRef (length (heap w1))),
        set_heap (heap w1 ++ [promise_obj (AResolved r)]) w1) /\
     settlement_of (heap w1 ++ [promise_obj (AResolved r)]) (AResolved r)
       = None /\
     (forall settled,
        adopt (length (heap w1)) settled
          (set_heap (heap w1 ++ [promise_obj (AResolved r)]) w1)
        = (Ok tt,
           set_heap (heap w1 ++ [promise_obj (settled_state settled)]) w1)) /\
     (forall e,
        settlement_of (heap w1 ++ [promise_obj (settled_state (Rejected e))])
          (settled_state (Rejected e))
        = Some (Rejected e))) /\
  (forall l o r settled,
     heap w !! l = Some o -> promise o = Some (AResolved r) ->
     thenable (heap w) r = true ->
     settlement_of (heap w) (AResolved r) = None /\
     adopt l settled w
     = (Ok tt,
        set_heap (alter (set_promise (settled_state settled)) l (heap w)) w)).
Proof.
  split; [|split; [|split; [|split; [|split]]]].
  - intros. eapply wrapper_throws; eassumption.
  - intros origCreate client e w1 Hf Hsp Horig.
    rewrite (call_createStub _ _ _ _ _ _ _ Hf). unfold bind at 1.
    destruct Hsp as [Hsp | [s Hsp]].
    + rewrite createStub_start_absent by assumption. rewrite Horig.
      reflexivity.
    + rewrite (createStub_start_present _ _ _ _ _ _ _ Hsp). rewrite Horig.
      reflexivity.
  - intros origCreate client s p w1 Hf Hsp Horig.
    rewrite (call_createStub _ _ _ _ _ _ _ Hf). unfold bind at 1.
    rewrite (createStub_start_present _ _ _ _ _ _ _ Hsp). rewrite Horig.
    reflexivity.
  - intros. eapply resume_rejected; eassumption.
  - intros origCreate client r w1 Hf Hsp Horig Hr.
    pose proof (thenable_app _ (promise_obj (AResolved r)) _ Hr) as Hr'.
    split; [|split; [|split]].
    + rewrite (call_createStub _ _ _ _ _ _ _ Hf). unfold bind at 1.
      rewrite createStub_start_absent by assumption. rewrite Horig.
      reflexivity.
    + cbn [settlement_of]. rewrite Hr'. reflexivity.
    + intros settled.
      rewrite (adopt_thenable _ _ (promise_obj (AResolved r)) r settled).
      * cbn [heap set_heap]. rewrite alter_last. reflexivity.
      * cbn [heap set_heap]. apply list_lookup_middle. reflexivity.
      * reflexivity.
      * exact Hr'.
    + intros e. reflexivity.
  - intros l o r settled Hl Hst Hr. split.
    + cbn [settlement_of]. rewrite Hr. reflexivity.
    + eapply adopt_thenable; eassumption.
Qed.

(** C10, as the code has it: the wrapper calls the original with its own
    arguments and with the stub as receiver, whatever the receiver of its
    own call, and returns what the original returned: a handle without a
    callable [on], or an event emitter. *)
Theorem wrapper_calls_on_stub (fuel : nat) (f this : value)
    (args : list value) (w : world) orig client stub sid name ct r w1 :
  closure_of (heap w) f
    = Some (CGrpcWrapper orig (Some client) stub sid name ct) ->
  call ext fuel orig stub args w = (Ok r, w1) ->
  closure_of (heap w1) (optional_member r (lit "on") (heap w1)) = None \/
  closure_of (heap w1) (optional_member r (lit "on") (heap w1)) = Some COn ->
  fst (call ext (S fuel) f this args w) = Ok r.
Proof.
  intros Hf Horig [Hon | Hon].
  - rewrite (wrapper_handle_without_on_aux _ _ _ _ _ _ _ _ _ _ _ _ _ Hf Horig Hon).
    reflexivity.
  - destruct r as [| | | |handle| |]; try discriminate Hon.
    cbn [optional_member] in Hon.
    rewrite (wrapper_instruments _ _ _ _ _ _ _ _ _ _ _ _ _ Hf Horig Hon).
    reflexivity.
Qed.

End CallProperties.

(** ** The integration at work *)

Example demo_require_fails :
  require (lit "google-gax") demo_world_no_library
  = (Throw (VError (lit "Cannot find module")), demo_world_no_library).
Proof. reflexivity. Qed.

(** From [install] to the closed span: the library is patched, the stub is
    created and its unary methods are wrapped, [echo] is called under the
    transaction, and the status event closes the span. *)
Example demo_end_to_end :
  let created := snd (resume 17 (Fulfilled (VRef 8)) demo_awaiting) in
  let called := call demo_ext 3 (VRef 18) (VRef 8) [] created in
  let closed := emit demo_ext 3 (VRef 22) (lit "status") [] (snd called) in
  fst called = Ok (VRef 22) /\
  spans (snd called)
    = [mkSpan (lit "unary call echo") (lit "gcloud.grpc.pubsub") 1 0] /\
  fst closed = Ok tt /\
  spans (snd closed)
    = [mkSpan (lit "unary call echo") (lit "gcloud.grpc.pubsub") 1 1].
Proof. vm_compute. auto. Qed.

(** The failure of the promise of the original reaches the promise of a
    wrapper that returned it: the promise at 17 is rejected, and the
    promise at 19, which follows it, is rejected with the same value. *)
Example demo_rejection_followed :
  let e := VError (lit "UNAVAILABLE") in
  let rejected := snd (resume 17 (Rejected e) demo_following) in
  let followed := snd (adopt 19 (Rejected e) rejected) in
  promise <$> heap rejected !! 17 = Some (Some (ARejected e)) /\
  promise <$> heap followed !! 19 = Some (Some (ARejected e)) /\
  settlement_of (heap followed) (ARejected e) = Some (Rejected e).
Proof. vm_compute. auto. Qed.

Lemma unary_call_span_witness :
  fillGrpcFunction (Some 7) (VRef 8) (lit "pubsub") (lit "echo") demo_world
    = (Ok tt, demo_wrapped) /\
  (exists wrapper,
     get (VRef 8) (lit "echo") demo_wrapped = (Ok wrapper, demo_wrapped) /\
     forall fuel this,
       call demo_ext (S (S fuel)) wrapper this [] demo_wrapped
       = (Ok (VRef 16), demo_instrumented)) /\
  spans demo_instrumented
    = [mkSpan (lit "unary call echo") (lit "gcloud.grpc.pubsub") 1 0] /\
  (forall fuel event a,
     event <> lit "status" ->
     emit demo_ext fuel (VRef 16) event a demo_instrumented
     = (Ok tt, demo_instrumented)) /\
  (forall fuel a,
     exists w3,
       emit demo_ext (S fuel) (VRef 16) (lit "status") a demo_instrumented
         = (Ok tt, w3) /\
       spans w3
       = [mkSpan (lit "unary call echo") (lit "gcloud.grpc.pubsub") 1 1]).
Proof.
  exact (unary_call_span demo_ext 7 8 2 (lit "pubsub") (lit "echo") 0 []
           demo_world 16 demo_handle (heap demo_echoed)
           eq_refl eq_refl eq_refl eq_refl eq_refl eq_refl eq_refl eq_refl).
Defined.

Lemma non_unary_untouched_witness :
  fillGrpcFunction (Some 7) (VRef 8) (lit "pubsub") (lit "watch") demo_world
    = (Ok tt, demo_world) /\
  (forall fuel this args,
     call demo_ext fuel
       (optional_member (VRef 8) (lit "watch")
          (heap (snd (fillGrpcFunction (Some 7) (VRef 8) (lit "pubsub")
                        (lit "watch") demo_world))))
       this args
       (snd (fillGrpcFunction (Some 7) (VRef 8) (lit "pubsub") (lit "watch")
               demo_world))
     = call demo_ext fuel (VRef 3) this args demo_world) /\
  (forall id fuel this args,
     closure_of (heap demo_world) (VRef 3) = Some (CExt id) ->
     spans (snd (call demo_ext fuel (VRef 3) this args demo_world))
     = spans demo_world).
Proof.
  apply (non_unary_untouched demo_ext (Some 7) (VRef 8) (lit "pubsub")
           (lit "watch") demo_world).
  - reflexivity.
  - right. right. reflexivity.
Defined.

Lemma createStub_without_servicePath_witness :
  call demo_ext 2 (VRef 15) (VRef 14) [VUndefined; VRef 14] demo_installed
    = (Ok (VRef 17),
       set_heap ((heap demo_installed ++ [mkObj VBuiltinProto [] None [] None])
                 ++ [promise_obj (AResolved (VRef 16))]) demo_installed) /\
  forall l o,
    (heap demo_installed ++ [mkObj VBuiltinProto [] None [] None]) !! l = Some o ->
    ((heap demo_installed ++ [mkObj VBuiltinProto [] None [] None])
     ++ [promise_obj (AResolved (VRef 16))]) !! l = Some o.
Proof.
  exact (createStub_without_servicePath demo_ext 1 (VRef 15) (VRef 14)
           [VUndefined; VRef 14] demo_installed (VRef 9) (Some 7) (VRef 16)
           (set_heap (heap demo_installed ++ [mkObj VBuiltinProto [] None [] None])
              demo_installed)
           eq_refl eq_refl eq_refl).
Defined.

Lemma install_library_unavailable_witness :
  snd (install (constructor (Some (mkOptions (Some true)))) 7
         demo_world_no_library)
    = (Ok tt, demo_world_no_library) /\
  snd (install (constructor (Some (mkOptions (Some false)))) 7
         demo_world_no_library)
    = (Throw (VError (lit "Cannot find module")), demo_world_no_library) /\
  snd (install (constructor (Some (mkOptions None))) 7 demo_world_no_library)
    = (Throw (VError (lit "Cannot find module")), demo_world_no_library) /\
  snd (install (constructor None) 7 demo_world_no_library)
    = (Throw (VError (lit "Cannot find module")), demo_world_no_library).
Proof.
  apply (install_library_unavailable 7 demo_world_no_library
           (VError (lit "Cannot find module"))).
  reflexivity.
Defined.

Lemma wrapper_handle_without_on_witness :
  call demo_ext 2 (VRef 15) (VRef 8) [] demo_wrapped_ping
    = (Ok VNull, demo_wrapped_ping).
Proof.
  apply (wrapper_handle_without_on demo_ext 1 (VRef 15) (VRef 8) []
           demo_wrapped_ping (VRef 6) (Some 7) (VRef 8) (lit "pubsub")
           (lit "ping") (lit "unary call") VNull demo_wrapped_ping);
    reflexivity.
Defined.

Lemma failures_propagate_witness :
  call demo_ext 2 (VRef 15) (VRef 8) [] demo_wrapped_fail
    = (Throw (VError (lit "UNAVAILABLE")), demo_wrapped_fail) /\
  call demo_ext 2 (VRef 15) (VRef 14) [VUndefined; VRef 13] demo_failing_create
    = (Ok (VRef 16),
       set_heap (heap demo_failing_create
                 ++ [promise_obj (ARejected (VError (lit "UNAVAILABLE")))])
         demo_failing_create) /\
  call demo_ext 2 (VRef 15) (VRef 14) [VUndefined; VRef 13] demo_installed
    = (Ok (VRef 17), demo_awaiting) /\
  resume 17 (Rejected (VError (lit "UNAVAILABLE"))) demo_awaiting
    = (Ok tt,
       set_heap (alter (set_promise (ARejected (VError (lit "UNAVAILABLE"))))
                   17 (heap demo_awaiting)) demo_awaiting) /\
  (call demo_ext 2 (VRef 18) (VRef 17) [] demo_following_create
     = (Ok (VRef 19), demo_following) /\
   settlement_of (heap demo_following) (AResolved (VRef 17)) = None /\
   (forall settled,
      adopt 19 settled demo_following
      = (Ok tt,
         set_heap (heap demo_following_create
                   ++ [promise_obj (settled_state settled)])
           demo_following_create)) /\
   (forall e,
      settlement_of
        (heap demo_following_create ++ [promise_obj (ARejected e)])
        (ARejected e)
      = Some (Rejected e))) /\
  (settlement_of (heap demo_following) (AResolved (VRef 17)) = None /\
   adopt 19 (Rejected (VError (lit "UNAVAILABLE"))) demo_following
   = (Ok tt,
      set_heap (alter (set_promise (ARejected (VError (lit "UNAVAILABLE"))))
                  19 (heap demo_following)) demo_following)).
Proof.
  split; [|split; [|split; [|split; [|split]]]].
  - apply (proj1 (failures_propagate demo_ext 1 (VRef 15) (VRef 8) []
                    demo_wrapped_fail)
             (VRef 5) (Some 7) (VRef 8) (lit "pubsub") (lit "fail")
             (lit "unary call") (VError (lit "UNAVAILABLE"))
             demo_wrapped_fail); reflexivity.
  - apply (proj1 (proj2 (failures_propagate demo_ext 1 (VRef 15) (VRef 14)
                           [VUndefined; VRef 13] demo_failing_create))
             (VRef 5) (Some 7) (VError (lit "UNAVAILABLE"))
             demo_failing_create).
    + reflexivity.
    + right. exists (lit "pubsub.googleapis.com"). reflexivity.
    + reflexivity.
  - apply (proj1 (proj2 (proj2 (failures_propagate demo_ext 1 (VRef 15)
                                  (VRef 14) [VUndefined; VRef 13]
                                  demo_installed)))
             (VRef 9) (Some 7) (lit "pubsub.googleapis.com") (VRef 16)
             (set_heap (heap demo_installed
                        ++ [mkObj VBuiltinProto [] None [] None])
                demo_installed)); reflexivity.
  - apply (proj1 (proj2 (proj2 (proj2 (failures_propagate demo_ext 0 VUndefined
                                  VUndefined [] demo_awaiting))))
             17 (promise_obj (AAwaiting (VRef 16)
                                (KWrapMethods (Some 7) (lit "pubsub"))))
             (VRef 16) (KWrapMethods (Some 7) (lit "pubsub"))
             (VError (lit "UNAVAILABLE")));
      reflexivity.
  - apply (proj1 (proj2 (proj2 (proj2 (proj2
             (failures_propagate demo_ext 1 (VRef 18) (VRef 17) []
                demo_following_create)))))
             (VRef 4) (Some 7) (VRef 17) demo_following_create);
      reflexivity.
  - apply (proj2 (proj2 (proj2 (proj2 (proj2
             (failures_propagate demo_ext 0 VUndefined VUndefined []
                demo_following)))))
             19 (promise_obj (AResolved (VRef 17))) (VRef 17)
             (Rejected (VError (lit "UNAVAILABLE"))));
      reflexivity.
Defined.

Lemma install_suppressed_failure_witness :
  install (constructor (Some (mkOptions (Some true)))) 7 demo_world_no_library
  = (mkGoogleCloudGrpc (Some 7) true, (Ok tt, demo_world_no_library)).
Proof.
  apply (install_suppressed_failure
           (constructor (Some (mkOptions (Some true)))) 7
           demo_world_no_library (VError (lit "Cannot find module")));
    reflexivity.
Defined.

(** C9 as it is stated fails: after the suppressed failure the instance
    holds the client, which it did not hold before. *)
Lemma install_suppressed_failure_counterexample :
  ~ (forall (self : GoogleCloudGrpc) (client : nat) (w : world) e,
       _optional self = true ->
       require (lit "google-gax") w = (Throw e, w) ->
       fst (install self client w) = self).
Proof.
  intros H.
  specialize (H (constructor (Some (mkOptions (Some true)))) 7
                demo_world_no_library (VError (lit "Cannot find module"))
                eq_refl eq_refl).
  discriminate H.
Qed.

Lemma wrapper_calls_on_stub_witness :
  fst (call demo_ext 2 (VRef 15) VUndefined [] demo_wrapped) = Ok (VRef 16).
Proof.
  apply (wrapper_calls_on_stub demo_ext 1 (VRef 15) VUndefined []
           demo_wrapped (VRef 2) 7 (VRef 8) (lit "pubsub") (lit "echo")
           (lit "unary call") (VRef 16) demo_echoed).
  - reflexivity.
  - reflexivity.
  - right. reflexivity.
Defined.

(** C10 as it is stated fails: called with the receiver [undefined], the
    wrapper of [whoami] has the original answer for the stub, where the
    original called with that receiver answers [undefined]. *)
Lemma wrapper_receiver_counterexample :
  fst (call demo_ext 2 (VRef 15) VUndefined [] demo_wrapped_whoami)
    = Ok (VRef 8) /\
  fst (call demo_ext 1 (VRef 4) VUndefined [] demo_wrapped_whoami)
    = Ok VUndefined /\
  ~ (forall this : value,
       fst (call demo_ext 2 (VRef 15) this [] demo_wrapped_whoami)
       = fst (call demo_ext 1 (VRef 4) this [] demo_wrapped_whoami)).
Proof.
  split; [reflexivity|]. split; [reflexivity|].
  intros H. specialize (H VUndefined). discriminate H.
Qed.

(** * Further properties of the code *)

(** ** The service identifier *)

Lemma host_name_inj (sep : charset) (w w' s : jsstring) :
  host_name sep w s -> host_name sep w' s -> w = w'.
Proof.
  intros (_ & _ & ch & _ & ->) (_ & _ & ch' & _ & H).
  apply app_inj_2 in H as [H _]; [assumption | reflexivity].
Qed.

Lemma host_name_length (sep : charset) (w s : jsstring) :
  host_name sep w s -> length s = length w + 15.
Proof.
  intros (_ & _ & ch & _ & ->). rewrite length_app. reflexivity.
Qed.

Lemma word_no_dot (a b : jsstring) :
  ~ Forall (fun c => is_word c = true) (a ++ 46%N :: b).
Proof.
  intros H. apply Forall_app in H as [_ H]. inversion H as [|? ? Hdot _].
  discriminate Hdot.
Qed.

Lemma identifyService_host (w s : jsstring) :
  host_name CsDot w s -> identifyService s = w.
Proof.
  intros H. unfold identifyService. rewrite service_pattern_host.
  rewrite (host_pattern_complete CsDot w s H). reflexivity.
Qed.

Lemma identifyService_cases (s : jsstring) :
  (exists w, host_name CsDot w s /\ identifyService s = w) \/
  ((forall w, ~ host_name CsDot w s) /\ identifyService s = s).
Proof.
  destruct (str_match s service_pattern) as [m|] eqn:Hm.
  - left. rewrite service_pattern_host in Hm.
    apply host_pattern_sound in Hm as (w & Hw & _).
    exists w. split; [assumption | apply identifyService_host; assumption].
  - right. split; [|apply identifyService_not_matching; assumption].
    intros w Hw. rewrite service_pattern_host in Hm.
    rewrite (host_pattern_complete CsDot w s Hw) in Hm. discriminate.
Qed.

Lemma identifyService_other (s : jsstring) :
  (forall w, ~ host_name CsDot w s) -> identifyService s = s.
Proof.
  intros Hn. destruct (identifyService_cases s) as [(w & Hw & _) | [_ H]].
  - destruct (Hn w Hw).
  - assumption.
Qed.

(** X1: [identifyService] yields [r] for the path [s] exactly when [s] is
    [r], a dot, [googleapis], one character that is no line terminator and
    [com], with [r] a non-empty run of word characters, or when [s] has
    no such form and [r] is [s]. *)
Theorem identifyService_characterised (s r : jsstring) :
  identifyService s = r <->
  host_name CsDot r s \/ (r = s /\ forall w, ~ host_name CsDot w s).
Proof.
  split.
  - intros <-. destruct (identifyService_cases s) as [(w & Hw & ->) | [Hn ->]].
    + left. assumption.
    + right. split; [reflexivity | assumption].
  - intros [H | [-> Hn]].
    + apply identifyService_host. assumption.
    + apply identifyService_other. assumption.
Qed.

(** X2: a word, [.googleapis], any one character and [com]: the identifier
    is the word unless the character is a line terminator, which the dot of
    the pattern does not match; the path is then its own identifier. *)
Theorem identifyService_any_separator (w : jsstring) (ch : N) :
  w <> [] ->
  Forall (fun c => is_word c = true) w ->
  identifyService (w ++ lit ".googleapis" ++ ch :: lit "com")
  = if is_line_terminator ch then w ++ lit ".googleapis" ++ ch :: lit "com"
    else w.
Proof.
  intros Hne Hw. destruct (is_line_terminator ch) eqn:Hch.
  - apply identifyService_other.
    intros w' (_ & _ & ch' & Hch' & H).
    change (lit ".googleapis" ++ ch :: lit "com")
      with (46%N :: lit "googleapis" ++ ch :: lit "com") in H.
    apply app_inj_2 in H as [_ H]; [|reflexivity].
    injection H as <-. simpl in Hch'. rewrite Hch in Hch'. discriminate.
  - apply identifyService_host. repeat split; try assumption.
    exists ch. split; [simpl; rewrite Hch|]; reflexivity.
Qed.

Lemma identifyService_any_separator_witness :
  identifyService (lit "pubsub" ++ lit ".googleapis" ++ 47%N :: lit "com")
  = lit "pubsub".
Proof.
  apply (identifyService_any_separator (lit "pubsub") 47%N).
  - discriminate.
  - repeat constructor.
Defined.

(** X3: the identifier of an identifier is the identifier itself. *)
Theorem identifyService_idempotent (s : jsstring) :
  identifyService (identifyService s) = identifyService s.
Proof.
  destruct (identifyService_cases s) as [(w & Hw & ->) | [_ Heq]].
  - apply identifyService_other.
    intros w' (_ & _ & ch & _ & H).
    destruct Hw as (_ & Hword & _). rewrite H in Hword.
    exact (word_no_dot _ _ Hword).
  - rewrite Heq. exact Heq.
Qed.

(** X4: the identifier is a prefix of the path; it is empty for the empty
    path only, and when it is not the path it is shorter by the fifteen
    characters of the host suffix, and made of word characters. *)
Theorem identifyService_prefix (s : jsstring) :
  identifyService s `prefix_of` s /\
  (identifyService s = [] <-> s = []) /\
  (identifyService s = s \/
   (length s = length (identifyService s) + 15 /\
    Forall (fun c => is_word c = true) (identifyService s))).
Proof.
  destruct (identifyService_cases s) as [(w & Hw & ->) | [_ ->]].
  - pose proof (host_name_length _ _ _ Hw) as Hlen.
    destruct Hw as (Hne & Hword & ch & _ & ->).
    split; [eexists; reflexivity|]. split.
    + split; [intros ->; congruence|].
      intros H. destruct w; [congruence | discriminate H].
    + right. split; [exact Hlen | exact Hword].
  - split; [reflexivity|]. split; [reflexivity|]. left. reflexivity.
Qed.

(** ** Wrapping keeps the rest of the world *)

Lemma assoc_upsert_ne (key key' : jsstring) (x : value)
    (l : list (jsstring * prop)) :
  key' <> key -> assoc key' (upsert key x l) = assoc key' l.
Proof.
  intros Hne. induction l as [|[k p] l IH]; simpl.
  - destruct (str_eqb key key') eqn:Hk; [|reflexivity].
    apply str_eqb_eq in Hk. congruence.
  - destruct (str_eqb k key) eqn:Hk; simpl.
    + apply str_eqb_eq in Hk. subst k.
      destruct (str_eqb key key') eqn:Hk'; [|reflexivity].
      apply str_eqb_eq in Hk'. congruence.
    + rewrite IH. reflexivity.
Qed.

Lemma assoc_upsert_eq (key : jsstring) (x : value)
    (l : list (jsstring * prop)) :
  pvalue <$> assoc key (upsert key x l) = Some x.
Proof. destruct (assoc_upsert key x l) as [e ->]. reflexivity. Qed.

(** What [fillGrpcFunction] does to an object stub: nothing, or the
    wrapping of the function that the property holds. *)
Lemma fillGrpcFunction_cases (client : option nat) (stub : loc)
    (sid name : jsstring) (w : world) :
  fillGrpcFunction client (VRef stub) sid name w = (Ok tt, w) \/
  exists method,
    lookup_chain (S (length (heap w))) (heap w) (VRef stub) name = VRef method /\
    fillGrpcFunction client (VRef stub) sid name w
    = (Ok tt, wrapped client stub method sid name w).
Proof.
  remember (fillGrpcFunction client (VRef stub) sid name w) as res eqn:Hres.
  unfold fillGrpcFunction, bind at 1 in Hres.
  unfold get at 1, ret at 1 in Hres.
  set (f := lookup_chain (S (length (heap w))) (heap w) (VRef stub) name) in *.
  unfold bind at 1 in Hres. unfold is_function at 1, ret at 1 in Hres.
  destruct (closure_of (heap w) f) as [c|] eqn:Hc.
  - rewrite bool_decide_eq_true_2 in Hres by eauto. cbn [negb] in Hres.
    destruct f as [| | | |method| |] eqn:Hf; try discriminate Hc.
    unfold bind at 1 in Hres. unfold get at 1, ret at 1 in Hres.
    unfold bind at 1 in Hres. unfold get at 1, ret at 1 in Hres.
    destruct (negb (str_eqb (callTypeOf _ _) (lit "unary call"))) eqn:Hct.
    + left. exact Hres.
    + right. exists method. split; [reflexivity|].
      apply negb_false_iff, str_eqb_eq in Hct. rewrite Hct in Hres.
      unfold fill, bind, get, ret in Hres. fold f in Hres.
      rewrite Hf in Hres. exact Hres.
  - rewrite bool_decide_eq_false_2 in Hres by (intros [? ?]; discriminate).
    left. exact Hres.
Qed.

Lemma agree_but_refl (stub : loc) (names : list jsstring) (w : world) :
  agree_but stub names w w.
Proof.
  repeat split; try reflexivity; [auto|].
  intros o Ho. exists o. repeat split; auto.
Qed.

Lemma agree_but_trans (stub : loc) (n1 n2 : list jsstring) (w1 w2 w3 : world) :
  agree_but stub n1 w1 w2 -> agree_but stub n2 w2 w3 ->
  agree_but stub (n1 ++ n2) w1 w3.
Proof.
  intros (Hs1 & Hc1 & Hm1 & Hl1 & Ho1 & Hst1) (Hs2 & Hc2 & Hm2 & Hl2 & Ho2 & Hst2).
  repeat split; try congruence; [lia | auto |].
  intros o Ho. destruct (Hst1 o Ho) as (o' & Ho' & Hp & Hcd & Hls & Hpr & Hk).
  destruct (Hst2 o' Ho') as (o'' & Ho'' & Hp' & Hcd' & Hls' & Hpr' & Hk').
  exists o''. repeat split; try congruence.
  intros key Hkey. rewrite elem_of_app in Hkey.
  rewrite Hk', Hk by tauto. reflexivity.
Qed.

Lemma wrapped_agree (client : option nat) (stub method : loc)
    (sid name : jsstring) (w : world) :
  agree_but stub [name] w (wrapped client stub method sid name w).
Proof.
  unfold wrapped, agree_but. cbn [heap spans scopes modules set_heap].
  repeat split.
  - rewrite length_alter, length_app. lia.
  - intros l o Hl Ho. rewrite list_lookup_alter_ne by congruence.
    apply lookup_app_l_Some. assumption.
  - intros o Ho. exists (set_own name (VRef (length (heap w))) o).
    rewrite list_lookup_alter_eq, (lookup_app_l_Some _ _ _ _ Ho).
    repeat split. intros key Hkey. cbn [set_own props].
    apply assoc_upsert_ne. intros ->. apply Hkey. constructor.
Qed.

Lemma fillGrpcFunction_agree (client : option nat) (stub : loc)
    (sid name : jsstring) (w : world) :
  fst (fillGrpcFunction client (VRef stub) sid name w) = Ok tt /\
  agree_but stub [name] w (snd (fillGrpcFunction client (VRef stub) sid name w)).
Proof.
  destruct (fillGrpcFunction_cases client stub sid name w) as [-> | (m & _ & ->)].
  - split; [reflexivity | apply agree_but_refl].
  - split; [reflexivity | apply wrapped_agree].
Qed.

(** X5: on a stub that is an object, [fillGrpcFunction] returns without
    throwing; it starts no span and touches neither the scopes nor the
    modules; every object but the stub is as it was, and the stub differs
    in the property of that name at most. *)
Theorem fillGrpcFunction_frame (client : option nat) (stub : loc)
    (sid name : jsstring) (w : world) :
  fst (fillGrpcFunction client (VRef stub) sid name w) = Ok tt /\
  agree_but stub [name] w (snd (fillGrpcFunction client (VRef stub) sid name w)).
Proof. apply fillGrpcFunction_agree. Qed.

(** ** The loop over the methods of a new stub *)

Lemma for_of_fill_agree (client : option nat) (stub : loc) (sid : jsstring)
    (names : list jsstring) (w : world) :
  exists w',
    for_of names (fun name => fillGrpcFunction client (VRef stub) sid name) w
    = (Ok tt, w') /\
    agree_but stub names w w'.
Proof.
  revert w. induction names as [|name names IH]; intros w.
  - exists w. split; [reflexivity | apply agree_but_refl].
  - cbn [for_of]. unfold bind at 1.
    destruct (fillGrpcFunction_agree client stub sid name w) as [Hok Hag].
    destruct (fillGrpcFunction client (VRef stub) sid name w) as [r w1].
    cbn [fst snd] in Hok, Hag. subst r.
    destruct (IH w1) as (w' & Hloop & Hag').
    exists w'. split; [exact Hloop|].
    exact (agree_but_trans stub [name] names w w1 w' Hag Hag').
Qed.

Lemma unary_on_prototype_agree (w w' : world) (stub p : loc)
    (name : jsstring) (m : loc) (names : list jsstring) :
  name ∉ names -> agree_but stub names w w' ->
  unary_on_prototype w stub p name m -> unary_on_prototype w' stub p name m.
Proof.
  intros Hname (_ & _ & _ & _ & Ho & Hst)
    (Hp & Hm & os & op & om & e & req & res & Hos & Hproto & Hnone & Hop
     & Hpm & Hom & Hcode & Hreq & Hreqf & Hres & Hresf).
  destruct (Hst os Hos) as (os' & Hos' & Hproto' & _ & _ & _ & Hk).
  split; [assumption|]. split; [assumption|].
  exists os', op, om, e, req, res.
  repeat split; try assumption; try (apply Ho; assumption); try congruence.
  rewrite Hk by assumption. assumption.
Qed.

Lemma wrapper_on_stub_agree (w w' : world) (client : option nat)
    (stub : loc) (sid name : jsstring) (m : loc) (names : list jsstring) :
  name ∉ names -> agree_but stub names w w' ->
  wrapper_on_stub w client stub sid name m ->
  wrapper_on_stub w' client stub sid name m.
Proof.
  intros Hname (_ & _ & _ & _ & Ho & Hst) (os & n & Hos & Hprop & Hn & Hc).
  destruct (Hst os Hos) as (os' & Hos' & _ & _ & _ & _ & Hk).
  exists os', n. repeat split; try assumption.
  - rewrite Hk by assumption. assumption.
  - simpl in Hc |- *. destruct (heap w !! n) as [on|] eqn:Hon; [|discriminate].
    rewrite (Ho n on Hn Hon). assumption.
Qed.

Lemma unary_on_prototype_lookup (w : world) (stub p : loc) (name : jsstring)
    (m : loc) :
  unary_on_prototype w stub p name m ->
  lookup_chain (S (length (heap w))) (heap w) (VRef stub) name = VRef m /\
  is_Some (closure_of (heap w) (VRef m)) /\
  truthy (lookup_chain (S (length (heap w))) (heap w) (VRef m)
            (lit "requestStream")) = false /\
  truthy (lookup_chain (S (length (heap w))) (heap w) (VRef m)
            (lit "responseStream")) = false.
Proof.
  intros (Hp & Hm & os & op & om & e & req & res & Hos & Hproto & Hnone & Hop
          & Hpm & Hom & Hcode & Hreq & Hreqf & Hres & Hresf).
  repeat split.
  - pose proof (lookup_lt_Some _ _ _ Hos) as Hlen.
    destruct (length (heap w)) as [|k] eqn:Hk; [lia|].
    cbn [lookup_chain]. rewrite Hos, Hnone, Hproto, Hop, Hpm. reflexivity.
  - simpl. rewrite Hom. exact Hcode.
  - rewrite (lookup_chain_own _ _ _ _ _ _ Hom Hreq). assumption.
  - rewrite (lookup_chain_own _ _ _ _ _ _ Hom Hres). assumption.
Qed.

Lemma wrapped_wrapper_on_stub (w : world) (client : option nat)
    (stub p : loc) (sid name : jsstring) (m : loc) :
  unary_on_prototype w stub p name m ->
  wrapper_on_stub (wrapped client stub m sid name w) client stub sid name m.
Proof.
  intros (Hp & Hm & os & op & om & e & req & res & Hos & _).
  exists (set_own name (VRef (length (heap w))) os), (length (heap w)).
  repeat split.
  - unfold wrapped. cbn [heap set_heap].
    rewrite list_lookup_alter_eq, (lookup_app_l_Some _ _ _ _ Hos). reflexivity.
  - apply assoc_upsert_eq.
  - apply lookup_lt_Some in Hos. lia.
  - apply wrapped_wrapper.
Qed.

Lemma for_of_fill_wraps (client : option nat) (stub p : loc)
    (sid name : jsstring) (m : loc) (names : list jsstring) (w : world) :
  name ∈ names -> NoDup names ->
  unary_on_prototype w stub p name m ->
  wrapper_on_stub
    (snd (for_of names
            (fun name => fillGrpcFunction client (VRef stub) sid name) w))
    client stub sid name m.
Proof.
  revert w. induction names as [|x names IH]; intros w Hin Hnd Hpre.
  - inversion Hin.
  - apply NoDup_cons in Hnd as [Hx Hnd]. cbn [for_of]. unfold bind.
    destruct (decide (x = name)) as [->|Hne].
    + destruct (unary_on_prototype_lookup _ _ _ _ _ Hpre) as (Hl & Hf & Hq & Hs).
      rewrite (fillGrpcFunction_unary client stub m sid name w Hl Hf Hq Hs).
      destruct (for_of_fill_agree client stub sid names
                  (wrapped client stub m sid name w)) as (w' & -> & Hag).
      cbn [snd].
      eapply wrapper_on_stub_agree; [exact Hx | exact Hag |].
      eapply wrapped_wrapper_on_stub. exact Hpre.
    + destruct (fillGrpcFunction_agree client stub sid x w) as [Hok Hag].
      destruct (fillGrpcFunction client (VRef stub) sid x w) as [r w1].
      cbn [fst snd] in Hok, Hag. subst r.
      apply IH; [|assumption|].
      * apply elem_of_cons in Hin as [->|Hin]; [congruence | assumption].
      * eapply unary_on_prototype_agree; [|exact Hag | exact Hpre].
        intros Hn. apply list_elem_of_singleton in Hn. congruence.
Qed.

Lemma assoc_elem {A} (key : jsstring) (l : list (jsstring * A)) (a : A) :
  assoc key l = Some a -> (key, a) ∈ l.
Proof.
  induction l as [|[k b] l IH]; simpl; [discriminate|].
  destruct (str_eqb k key) eqn:Hk.
  - apply str_eqb_eq in Hk. intros [= ->]. subst k. constructor.
  - intros H. constructor. apply IH. assumption.
Qed.

Lemma keys_elem (P : jsstring * prop -> Prop) `{!forall kp, Decision (P kp)}
    (l : list (jsstring * prop)) (k : jsstring) :
  k ∈ map fst (filter P l) -> k ∈ map fst l.
Proof.
  induction l as [|kp l IH]; [easy|].
  rewrite filter_cons. destruct (decide (P kp)); simpl.
  - intros Hin. apply elem_of_cons in Hin as [->|Hin]; [constructor|].
    constructor. apply IH. assumption.
  - intros Hin. constructor. apply IH. assumption.
Qed.

Lemma keys_NoDup (P : jsstring * prop -> Prop) `{!forall kp, Decision (P kp)}
    (l : list (jsstring * prop)) :
  NoDup (map fst l) -> NoDup (map fst (filter P l)).
Proof.
  induction l as [|kp l IH]; [easy|]. simpl.
  intros Hnd. apply NoDup_cons in Hnd as [Hk Hl].
  rewrite filter_cons. destruct (decide (P kp)); simpl; [|auto].
  apply NoDup_cons. split; [|auto].
  intros Hin. apply Hk. eapply keys_elem. exact Hin.
Qed.

Lemma keys_enumerable (l : list (jsstring * prop)) (k : jsstring) (v : value) :
  assoc k l = Some (mkProp true v) ->
  k ∈ map fst (filter (fun kp => enumerable (snd kp) = true) l).
Proof.
  intros H. apply assoc_elem in H.
  apply list_elem_of_In. apply (in_map fst _ (k, mkProp true v)).
  apply list_elem_of_In. apply list_elem_of_filter. split; [reflexivity | assumption].
Qed.

Lemma createStub_resume_object (client : option nat) (sid : jsstring)
    (stub p : loc) (os op : obj) (w : world) :
  heap w !! stub = Some os -> proto os = VRef p -> heap w !! p = Some op ->
  createStub_resume (KWrapMethods client sid) (Fulfilled (VRef stub)) w
  = (Ok (AResolved (VRef stub)),
     snd (for_of
            (map fst (filter (fun kp => enumerable (snd kp) = true) (props op)))
            (fun name => fillGrpcFunction client (VRef stub) sid name) w)).
Proof.
  intros Hos Hproto Hop.
  unfold createStub_resume, async, try_catch, bind at 1. unfold ret at 1.
  unfold bind at 1. unfold getPrototypeOf at 1. rewrite Hos, Hproto.
  unfold ret at 1. unfold bind at 1. unfold Object_keys at 1. rewrite Hop.
  unfold ret at 1. unfold bind.
  destruct (for_of_fill_agree client stub sid
              (map fst (filter (fun kp => enumerable (snd kp) = true) (props op)))
              w) as (w' & -> & _).
  reflexivity.
Qed.

(** X6: when the promise of the original is fulfilled with a stub, the
    body resolves with that stub, and a unary method that the prototype of
    the stub lists among its enumerable properties is wrapped: the stub
    then holds, as its own property of that name, a wrapper of the method
    for the client and the service identifier.  No span is started. *)
Theorem createStub_resume_wraps (client : option nat) (sid name : jsstring)
    (stub p m : loc) (os op om : obj) (req res : prop) (w : world) :
  heap w !! stub = Some os -> proto os = VRef p -> p <> stub ->
  assoc name (props os) = None ->
  heap w !! p = Some op -> NoDup (map fst (props op)) ->
  assoc name (props op) = Some (mkProp true (VRef m)) ->
  m <> stub -> heap w !! m = Some om -> is_Some (code om) ->
  assoc (lit "requestStream") (props om) = Some req ->
  truthy (pvalue req) = false ->
  assoc (lit "responseStream") (props om) = Some res ->
  truthy (pvalue res) = false ->
  exists w' n,
    createStub_resume (KWrapMethods client sid) (Fulfilled (VRef stub)) w
      = (Ok (AResolved (VRef stub)), w') /\
    spans w' = spans w /\
    lookup_chain (S (length (heap w'))) (heap w') (VRef stub) name = VRef n /\
    closure_of (heap w') (VRef n)
      = Some (CGrpcWrapper (VRef m) client (VRef stub) sid name
                (lit "unary call")).
Proof.
  intros Hos Hproto Hp Hnone Hop Hnd Hpm Hm Hom Hcode Hreq Hreqf Hres Hresf.
  rewrite (createStub_resume_object client sid stub p os op w Hos Hproto Hop).
  set (names := map fst (filter (fun kp => enumerable (snd kp) = true) (props op))).
  assert (Hpre : unary_on_prototype w stub p name m).
  { split; [assumption|]. split; [assumption|].
    exists os, op, om, true, req, res. repeat split; assumption. }
  pose proof (for_of_fill_wraps client stub p sid name m names w
                (keys_enumerable _ _ _ Hpm) (keys_NoDup _ _ Hnd) Hpre)
    as (os' & n & Hos' & Hprop & _ & Hclo).
  destruct (for_of_fill_agree client stub sid names w) as (w' & Hloop & Hag).
  rewrite Hloop in Hos', Hclo |- *. cbn [snd] in *.
  exists w', n. split; [reflexivity|]. split; [apply Hag|]. split; [|exact Hclo].
  destruct (assoc name (props os')) as [pr|] eqn:Hpr; [|discriminate].
  injection Hprop as Hprop.
  rewrite (lookup_chain_own _ _ _ _ _ _ Hos' Hpr). assumption.
Qed.

Lemma createStub_resume_wraps_witness :
  exists w' n,
    createStub_resume (KWrapMethods (Some 7) (lit "pubsub"))
      (Fulfilled (VRef 8)) demo_world
      = (Ok (AResolved (VRef 8)), w') /\
    spans w' = spans demo_world /\
    lookup_chain (S (length (heap w'))) (heap w') (VRef 8) (lit "echo")
      = VRef n /\
    closure_of (heap w') (VRef n)
      = Some (CGrpcWrapper (VRef 2) (Some 7) (VRef 8) (lit "pubsub")
                (lit "echo") (lit "unary call")).
Proof.
  refine (createStub_resume_wraps (Some 7) (lit "pubsub") (lit "echo") 8 7 2
            (mkObj (VRef 7) [] None [] None) _ (demo_method 0 false false "Echo")
            (mkProp true (VBool false)) (mkProp true (VBool false)) demo_world
            eq_refl eq_refl _ eq_refl eq_refl _ eq_refl _ eq_refl _
            eq_refl eq_refl eq_refl eq_refl).
  - discriminate.
  - refine (bool_decide_unpack _ _). vm_compute. exact I.
  - discriminate.
  - eexists. reflexivity.
Defined.

(** X7: the body after the [await] changes of the world the properties of
    the stub that the enumerable properties of its prototype name, and
    nothing else: every other object, the spans, the scopes and the modules
    are as they were; the body resolves with the stub. *)
Theorem createStub_resume_frame (client : option nat) (sid : jsstring)
    (stub p : loc) (os op : obj) (w : world) :
  heap w !! stub = Some os -> proto os = VRef p -> heap w !! p = Some op ->
  fst (createStub_resume (KWrapMethods client sid) (Fulfilled (VRef stub)) w)
    = Ok (AResolved (VRef stub)) /\
  agree_but stub
    (map fst (filter (fun kp => enumerable (snd kp) = true) (props op)))
    w
    (snd (createStub_resume (KWrapMethods client sid)
            (Fulfilled (VRef stub)) w)).
Proof.
  intros Hos Hproto Hop.
  rewrite (createStub_resume_object client sid stub p os op w Hos Hproto Hop).
  split; [reflexivity|]. cbn [snd].
  destruct (for_of_fill_agree client stub sid
              (map fst (filter (fun kp => enumerable (snd kp) = true) (props op)))
              w) as (w' & -> & Hag).
  exact Hag.
Qed.

Lemma createStub_resume_frame_witness :
  fst (createStub_resume (KWrapMethods (Some 7) (lit "pubsub"))
         (Fulfilled (VRef 8)) demo_world)
    = Ok (AResolved (VRef 8)) /\
  agree_but 8
    [lit "echo"; lit "watch"; lit "whoami"; lit "fail"; lit "ping";
     lit "deadline"]
    demo_world
    (snd (createStub_resume (KWrapMethods (Some 7) (lit "pubsub"))
            (Fulfilled (VRef 8)) demo_world)).
Proof.
  exact (createStub_resume_frame (Some 7) (lit "pubsub") 8 7 _ _ demo_world
           eq_refl eq_refl eq_refl).
Defined.

(** X8: when the promise of the original is fulfilled with [null] or
    [undefined], or with an object that has no prototype, the body throws
    the [TypeError] of [Object.getPrototypeOf] or of [Object.keys]: the
    promise of the wrapper is rejected although the original succeeded, and
    the world is as it was. *)
Theorem createStub_resume_not_an_object (k : kont) (v : value) (w : world) :
  is_nullish v = true \/
  (exists l o, v = VRef l /\ heap w !! l = Some o /\ is_nullish (proto o) = true) ->
  createStub_resume k (Fulfilled v) w = (Ok (ARejected TypeError), w).
Proof.
  destruct k as [client sid].
  intros [Hv | (l & o & -> & Ho & Hp)].
  - destruct v; try discriminate Hv; reflexivity.
  - unfold createStub_resume, async, try_catch, bind at 1. unfold ret at 1.
    unfold bind at 1. unfold getPrototypeOf at 1. rewrite Ho.
    destruct (proto o); try discriminate Hp; reflexivity.
Qed.

Lemma createStub_resume_not_an_object_witness :
  createStub_resume (KWrapMethods (Some 7) (lit "pubsub")) (Fulfilled VNull)
    demo_world
  = (Ok (ARejected TypeError), demo_world) /\
  createStub_resume (KWrapMethods (Some 7) (lit "pubsub"))
    (Fulfilled (VRef 14)) demo_world
  = (Ok (ARejected TypeError), demo_world).
Proof.
  split.
  - apply (createStub_resume_not_an_object _ VNull demo_world).
    left. reflexivity.
  - apply (createStub_resume_not_an_object _ (VRef 14) demo_world).
    right. eexists _, _. repeat split; reflexivity.
Defined.

(** ** Registration with the library loaded *)

Lemma get_own (l : loc) (o : obj) (key : jsstring) (p : prop) (w : world) :
  heap w !! l = Some o -> assoc key (props o) = Some p ->
  get (VRef l) key w = (Ok (pvalue p), w).
Proof.
  intros Hl Hp. unfold get, ret.
  rewrite (lookup_chain_own _ _ _ _ _ _ Hl Hp). reflexivity.
Qed.

Lemma install_loaded (self : GoogleCloudGrpc) (client : nat) (w : world)
    (lg lc lp : loc) (og oc op : obj) (eg ec ep : bool) (orig : value) :
  modules w !! lit "google-gax" = Some (Ok (VRef lg)) ->
  heap w !! lg = Some og ->
  assoc (lit "GrpcClient") (props og) = Some (mkProp eg (VRef lc)) ->
  heap w !! lc = Some oc ->
  assoc (lit "prototype") (props oc) = Some (mkProp ec (VRef lp)) ->
  heap w !! lp = Some op ->
  assoc (lit "createStub") (props op) = Some (mkProp ep orig) ->
  install self client w
  = (mkGoogleCloudGrpc (Some client) (_optional self),
     (Ok tt, patched client lp orig w)).
Proof.
  intros Hmod Hg Hgc Hc Hcp Hp Hpc.
  unfold install, try_catch. f_equal.
  unfold bind at 1. unfold require at 1. rewrite Hmod.
  unfold bind at 1. rewrite (get_own _ _ _ _ _ Hg Hgc). cbn [pvalue].
  unfold bind at 1. rewrite (get_own _ _ _ _ _ Hc Hcp). cbn [pvalue].
  unfold fill, bind at 1. rewrite (get_own _ _ _ _ _ Hp Hpc). cbn [pvalue].
  reflexivity.
Qed.

Lemma patched_agree (client : nat) (lp : loc) (orig : value) (w : world) :
  agree_but lp [lit "createStub"] w (patched client lp orig w).
Proof.
  unfold patched, agree_but. cbn [heap spans scopes modules set_heap].
  repeat split.
  - rewrite length_alter, length_app. lia.
  - intros l o Hl Ho. rewrite list_lookup_alter_ne by congruence.
    apply lookup_app_l_Some. assumption.
  - intros o Ho. exists (set_own (lit "createStub") (VRef (length (heap w))) o).
    rewrite list_lookup_alter_eq, (lookup_app_l_Some _ _ _ _ Ho).
    repeat split. intros key Hkey. cbn [set_own props].
    apply assoc_upsert_ne. intros ->. apply Hkey. constructor.
Qed.

Lemma patched_createStub (client : nat) (lp : loc) (orig : value) (w : world)
    (op : obj) :
  heap w !! lp = Some op ->
  exists op' e,
    heap (patched client lp orig w) !! lp = Some op' /\
    assoc (lit "createStub") (props op')
    = Some (mkProp e (VRef (length (heap w)))).
Proof.
  intros Hp.
  destruct (assoc_upsert (lit "createStub") (VRef (length (heap w))) (props op))
    as [e He].
  exists (set_own (lit "createStub") (VRef (length (heap w))) op), e.
  split; [|exact He].
  unfold patched. cbn [heap set_heap].
  rewrite list_lookup_alter_eq, (lookup_app_l_Some _ _ _ _ Hp). reflexivity.
Qed.

Lemma patched_wrapper (client : nat) (lp : loc) (orig : value) (w : world) :
  closure_of (heap (patched client lp orig w)) (VRef (length (heap w)))
  = Some (CCreateStubWrapper orig (Some client)).
Proof.
  unfold patched. cbn [heap set_heap].
  rewrite closure_of_alter by reflexivity. apply closure_of_alloc.
Qed.

Lemma patched_own (client : nat) (lp : loc) (orig : value) (w : world)
    (l : loc) (o : obj) (key : jsstring) (p : prop) :
  key <> lit "createStub" ->
  heap w !! l = Some o -> assoc key (props o) = Some p ->
  exists o', heap (patched client lp orig w) !! l = Some o' /\
    assoc key (props o') = Some p.
Proof.
  intros Hkey Hl Hp.
  destruct (patched_agree client lp orig w) as (_ & _ & _ & _ & Ho & Hst).
  destruct (decide (l = lp)) as [->|Hne].
  - destruct (Hst o Hl) as (o' & Ho' & _ & _ & _ & _ & Hk).
    exists o'. split; [assumption|]. rewrite Hk; [assumption|].
    intros Hin. apply list_elem_of_singleton in Hin. congruence.
  - exists o. split; [apply Ho; assumption | assumption].
Qed.

(** X9: with the library loaded, [install] returns without throwing,
    whatever [optional]; the instance holds the client; [createStub] of
    the prototype of [GrpcClient] then holds a new function, the wrapper
    of the original for that client; every other object and every other
    property of the prototype is as it was. *)
Theorem install_patches (self : GoogleCloudGrpc) (client : nat) (w : world)
    (lg lc lp : loc) (og oc op : obj) (eg ec ep : bool) (orig : value) :
  modules w !! lit "google-gax" = Some (Ok (VRef lg)) ->
  heap w !! lg = Some og ->
  assoc (lit "GrpcClient") (props og) = Some (mkProp eg (VRef lc)) ->
  heap w !! lc = Some oc ->
  assoc (lit "prototype") (props oc) = Some (mkProp ec (VRef lp)) ->
  heap w !! lp = Some op ->
  assoc (lit "createStub") (props op) = Some (mkProp ep orig) ->
  exists w',
    install self client w
    = (mkGoogleCloudGrpc (Some client) (_optional self), (Ok tt, w')) /\
    lookup_chain (S (length (heap w'))) (heap w') (VRef lp) (lit "createStub")
    = VRef (length (heap w)) /\
    closure_of (heap w') (VRef (length (heap w)))
    = Some (CCreateStubWrapper orig (Some client)) /\
    agree_but lp [lit "createStub"] w w'.
Proof.
  intros Hmod Hg Hgc Hc Hcp Hp Hpc.
  exists (patched client lp orig w). split.
  - eapply install_loaded; eassumption.
  - split; [|split; [apply patched_wrapper | apply patched_agree]].
    destruct (patched_createStub client lp orig w op Hp) as (op' & e & Hop' & He).
    rewrite (lookup_chain_own _ _ _ _ _ _ Hop' He). reflexivity.
Qed.

Lemma install_patches_witness :
  exists w',
    install (constructor None) 7 demo_world
    = (mkGoogleCloudGrpc (Some 7) false, (Ok tt, w')) /\
    lookup_chain (S (length (heap w'))) (heap w') (VRef 10) (lit "createStub")
    = VRef 15 /\
    closure_of (heap w') (VRef 15) = Some (CCreateStubWrapper (VRef 9) (Some 7)) /\
    agree_but 10 [lit "createStub"] demo_world w'.
Proof.
  exact (install_patches (constructor None) 7 demo_world 12 11 10 _ _ _
           true false true (VRef 9)
           eq_refl eq_refl eq_refl eq_refl eq_refl eq_refl eq_refl).
Defined.

(** X10: [install] keeps no record of the patch: a second [install] wraps
    the wrapper of the first.  [createStub] then holds the wrapper, for the
    second client, of the wrapper, for the first client, of the
    original. *)
Theorem install_twice (self : GoogleCloudGrpc) (c1 c2 : nat) (w : world)
    (lg lc lp : loc) (og oc op : obj) (eg ec ep : bool) (orig : value) :
  modules w !! lit "google-gax" = Some (Ok (VRef lg)) ->
  heap w !! lg = Some og ->
  assoc (lit "GrpcClient") (props og) = Some (mkProp eg (VRef lc)) ->
  heap w !! lc = Some oc ->
  assoc (lit "prototype") (props oc) = Some (mkProp ec (VRef lp)) ->
  heap w !! lp = Some op ->
  assoc (lit "createStub") (props op) = Some (mkProp ep orig) ->
  exists w2,
    install (fst (install self c1 w)) c2 (snd (snd (install self c1 w)))
    = (mkGoogleCloudGrpc (Some c2) (_optional self), (Ok tt, w2)) /\
    lookup_chain (S (length (heap w2))) (heap w2) (VRef lp) (lit "createStub")
    = VRef (S (length (heap w))) /\
    closure_of (heap w2) (VRef (S (length (heap w))))
    = Some (CCreateStubWrapper (VRef (length (heap w))) (Some c2)) /\
    closure_of (heap w2) (VRef (length (heap w)))
    = Some (CCreateStubWrapper orig (Some c1)).
Proof.
  intros Hmod Hg Hgc Hc Hcp Hp Hpc.
  rewrite (install_loaded self c1 w lg lc lp og oc op eg ec ep orig)
    by assumption.
  cbn [fst snd].
  set (w1 := patched c1 lp orig w).
  assert (Hk1 : lit "GrpcClient" <> lit "createStub") by discriminate.
  assert (Hk2 : lit "prototype" <> lit "createStub") by discriminate.
  destruct (patched_own c1 lp orig w lg og _ _ Hk1 Hg Hgc)
    as (og' & Hg' & Hgc').
  destruct (patched_own c1 lp orig w lc oc _ _ Hk2 Hc Hcp)
    as (oc' & Hc' & Hcp').
  destruct (patched_createStub c1 lp orig w op Hp) as (op' & e & Hp' & Hpc').
  assert (Hlen : length (heap w1) = S (length (heap w))).
  { unfold w1, patched. cbn [heap set_heap].
    rewrite length_alter, length_app. simpl. lia. }
  exists (patched c2 lp (VRef (length (heap w))) w1). split.
  - apply (install_loaded (mkGoogleCloudGrpc (Some c1) (_optional self))
             c2 w1 lg lc lp og' oc' op' eg ec e); assumption.
  - split; [|split].
    + destruct (patched_createStub c2 lp (VRef (length (heap w))) w1 op' Hp')
        as (op'' & e' & Hop'' & He').
      rewrite (lookup_chain_own _ _ _ _ _ _ Hop'' He'). cbn [pvalue].
      rewrite Hlen. reflexivity.
    + rewrite <- Hlen. apply patched_wrapper.
    + unfold patched at 1. cbn [heap set_heap].
      rewrite closure_of_alter by reflexivity.
      apply closure_of_app. apply patched_wrapper.
Qed.

Lemma install_twice_witness :
  exists w2,
    install (fst (install (constructor None) 7 demo_world)) 8
      (snd (snd (install (constructor None) 7 demo_world)))
    = (mkGoogleCloudGrpc (Some 8) false, (Ok tt, w2)) /\
    lookup_chain (S (length (heap w2))) (heap w2) (VRef 10) (lit "createStub")
    = VRef 16 /\
    closure_of (heap w2) (VRef 16)
    = Some (CCreateStubWrapper (VRef 15) (Some 8)) /\
    closure_of (heap w2) (VRef 15)
    = Some (CCreateStubWrapper (VRef 9) (Some 7)).
Proof.
  exact (install_twice (constructor None) 7 8 demo_world 12 11 10 _ _ _
           true false true (VRef 9)
           eq_refl eq_refl eq_refl eq_refl eq_refl eq_refl eq_refl).
Defined.

(** X11: the [catch] of [install] is not for the failure of the load
    alone.  When the module loads but is [null] or [undefined], or has no
    [GrpcClient], or a [GrpcClient] without [prototype], the [TypeError] of
    the property access is swallowed under [optional] and thrown
    otherwise; the world is as it was. *)
Theorem install_unexpected_module (self : GoogleCloudGrpc) (client : nat)
    (w : world) (gax : value) :
  modules w !! lit "google-gax" = Some (Ok gax) ->
  is_nullish gax = true \/
  is_nullish (optional_member gax (lit "GrpcClient") (heap w)) = true \/
  is_nullish (optional_member
                (optional_member gax (lit "GrpcClient") (heap w))
                (lit "prototype") (heap w)) = true ->
  install self client w
  = (mkGoogleCloudGrpc (Some client) (_optional self),
     if _optional self then (Ok tt, w) else (Throw TypeError, w)).
Proof.
  intros Hmod Hshape. unfold install. f_equal.
  assert (Hbody :
    (do gaxModule <- require (lit "google-gax");
     do GrpcClient <- get gaxModule (lit "GrpcClient");
     do prototype <- get GrpcClient (lit "prototype");
     fill prototype (lit "createStub")
       (_wrapCreateStub (mkGoogleCloudGrpc (Some client) (_optional self)))) w
    = (Throw TypeError, w)).
  { unfold bind at 1. unfold require at 1. rewrite Hmod.
    destruct (is_nullish gax) eqn:Hg.
    { destruct gax; try discriminate Hg; reflexivity. }
    assert (Hget1 : get gax (lit "GrpcClient") w
              = (Ok (optional_member gax (lit "GrpcClient") (heap w)), w))
      by (destruct gax; try discriminate Hg; reflexivity).
    unfold bind at 1. rewrite Hget1.
    set (gc := optional_member gax (lit "GrpcClient") (heap w)) in *.
    destruct (is_nullish gc) eqn:Hgc.
    { destruct gc; try discriminate Hgc; reflexivity. }
    assert (Hget2 : get gc (lit "prototype") w
              = (Ok (optional_member gc (lit "prototype") (heap w)), w))
      by (destruct gc; try discriminate Hgc; reflexivity).
    unfold bind at 1. rewrite Hget2.
    destruct Hshape as [H | [H | H]]; try discriminate H.
    unfold fill, bind at 1.
    destruct (optional_member gc (lit "prototype") (heap w));
      try discriminate H; reflexivity. }
  unfold try_catch. rewrite Hbody.
  destruct (_optional self); reflexivity.
Qed.

Lemma install_unexpected_module_witness :
  install (constructor (Some (mkOptions (Some true)))) 7
    (mkWorld demo_heap ∅ [] {[ lit "google-gax" := Ok (VRef 14) ]})
  = (mkGoogleCloudGrpc (Some 7) true,
     (Ok tt, mkWorld demo_heap ∅ [] {[ lit "google-gax" := Ok (VRef 14) ]})).
Proof.
  apply (install_unexpected_module
           (constructor (Some (mkOptions (Some true)))) 7
           (mkWorld demo_heap ∅ [] {[ lit "google-gax" := Ok (VRef 14) ]})
           (VRef 14)).
  - reflexivity.
  - right. left. reflexivity.
Defined.

(** ** More on the wrapper of a method *)

Section MoreCallProperties.

Variable ext : nat -> value -> list value -> list obj -> result value * list obj.

Lemma closure_of_kept (h h' : list obj) (v : value) (c : closure) :
  (forall l o, h !! l = Some o -> h' !! l = Some o) ->
  closure_of h v = Some c -> closure_of h' v = Some c.
Proof.
  intros Hk. destruct v; simpl; try discriminate.
  destruct (h !! l) as [o|] eqn:Hl; simpl; [|discriminate].
  rewrite (Hk l o Hl). simpl. auto.
Qed.

(** A handle with one listener of the status event, the listener of a
    span: the event finishes that span. *)
Lemma emit_status_listener (fuel : nat) (handle : loc) (oh : obj)
    (listener : loc) (s : nat) (args : list value) (w : world) :
  heap w !! handle = Some oh ->
  listeners oh = [(lit "status", VRef listener)] ->
  closure_of (heap w) (VRef listener) = Some (CStatusListener (Some s)) ->
  emit ext (S fuel) (VRef handle) (lit "status") args w
  = (Ok tt, set_spans (alter finish_span s (spans w)) w).
Proof.
  intros Hh Hl Hc. unfold emit. rewrite Hh, Hl.
  rewrite filter_cons_True by reflexivity. rewrite filter_nil.
  cbn [for_of fst snd]. unfold bind at 1. unfold bind at 1.
  cbn [call]. rewrite Hc. reflexivity.
Qed.

Lemma instrumented_spans (client : nat) (d o : jsstring) (handle : loc)
    (w : world) (t : nat) :
  scopes w !! client = Some t ->
  spans (instrumented client d o handle w) = spans w ++ [mkSpan d o t 0] /\
  closure_of (heap (instrumented client d o handle w)) (VRef (length (heap w)))
  = Some (CStatusListener (Some (length (spans w)))).
Proof.
  intros Ht. split.
  - unfold instrumented, started. rewrite Ht. reflexivity.
  - rewrite instrumented_listener, Ht. reflexivity.
Qed.

(** X12: the listener is registered with [on]: every status event calls
    [finish] on the span again.  After [k] status events on the handle of
    a call under a transaction, [finish] has been called [k] times on the
    span of the call, and on no other. *)
Theorem status_events_finish (fuel k : nat) (client : nat) (d o : jsstring)
    (handle : loc) (oh : obj) (t : nat) (args : list value) (w : world) :
  heap w !! handle = Some oh -> listeners oh = [] ->
  scopes w !! client = Some t ->
  emit_times ext (S fuel) k (VRef handle) (lit "status") args
    (instrumented client d o handle w)
  = (Ok tt,
     set_spans (spans w ++ [mkSpan d o t k])
       (instrumented client d o handle w)).
Proof.
  intros Hh Hl Ht.
  destruct (instrumented_spans client d o handle w t Ht) as [Hsp Hc].
  pose proof (instrumented_handle client d o handle w oh Hh) as Hh'.
  assert (Hstep : forall j n,
    emit_times ext (S fuel) n (VRef handle) (lit "status") args
      (set_spans (spans w ++ [mkSpan d o t j])
         (instrumented client d o handle w))
    = (Ok tt,
       set_spans (spans w ++ [mkSpan d o t (n + j)])
         (instrumented client d o handle w))).
  { intros j n. revert j. induction n as [|n IH]; intros j; [reflexivity|].
    cbn [emit_times]. unfold bind at 1.
    rewrite (emit_status_listener fuel handle
               (add_listener (lit "status") (VRef (length (heap w))) oh)
               (length (heap w)) (length (spans w)))
      by (try exact Hh'; try exact Hc; cbn [add_listener listeners];
          rewrite Hl; reflexivity).
    change (set_spans ?a (set_spans ?b ?c)) with (set_spans a c).
    change (spans (set_spans ?a ?c)) with a.
    rewrite alter_last.
    change (finish_span (mkSpan d o t j)) with (mkSpan d o t (S j)).
    rewrite IH. replace (n + S j) with (S n + j) by lia. reflexivity. }
  specialize (Hstep 0 k). rewrite Nat.add_0_r in Hstep.
  rewrite <- Hstep. f_equal.
  unfold set_spans. rewrite <- Hsp. destruct (instrumented _ _ _ _ _).
  reflexivity.
Qed.

(** X13: when [on] of the handle is a function that throws, the wrapper
    throws what [on] threw.  Under a transaction the span of the call has
    then been started, and no listener will finish it. *)
Theorem wrapper_on_throws (fuel : nat) (f this : value) (args : list value)
    (w : world) orig client stub sid name ct handle w1 id e h2 :
  closure_of (heap w) f
    = Some (CGrpcWrapper orig (Some client) stub sid name ct) ->
  call ext fuel orig stub args w = (Ok (VRef handle), w1) ->
  closure_of (heap w1)
    (lookup_chain (S (length (heap w1))) (heap w1) (VRef handle) (lit "on"))
    = Some (CExt id) ->
  ext id (VRef handle) [VStr (lit "status"); VRef (length (heap w1))]
    (heap w1 ++ [function_obj (CStatusListener
                   (match scopes w1 !! client with
                    | Some _ => Some (length (spans w1))
                    | None => None
                    end))])
    = (Throw e, h2) ->
  call ext (S fuel) f this args w
  = (Throw e,
     mkWorld h2 (scopes w1)
       (spans w1 ++ started client (ct ++ lit " " ++ name)
                      (lit "gcloud.grpc." ++ sid) w1)
       (modules w1)).
Proof.
  intros Hf Horig Hcode Hext.
  destruct (call_returns_fuel ext _ _ _ _ _ _ _ Horig) as [n ->]; [discriminate|].
  rewrite (call_wrapper ext _ _ _ _ _ _ _ _ _ _ _ Hf).
  unfold grpc_wrapper, bind at 1. rewrite Horig.
  unfold bind at 1. unfold get_optional, get at 1, ret at 1.
  unfold bind at 1. unfold is_function, ret at 1. rewrite Hcode.
  rewrite bool_decide_eq_true_2 by eauto. cbn [negb].
  unfold started.
  unfold bind at 1. unfold getTransaction, ret at 1.
  destruct (scopes w1 !! client) as [t|].
  - unfold bind at 1. unfold bind at 1. unfold startChild, ret at 1 2.
    unfold bind, get, alloc_function, alloc, ret.
    cbn [call set_heap set_spans heap spans scopes modules].
    rewrite (closure_of_app _ _ _ _ Hcode).
    unfold ext_call. change (heap (set_heap ?a ?b)) with a.
    rewrite Hext. reflexivity.
  - unfold bind at 1. unfold ret at 1.
    unfold bind, get, alloc_function, alloc, ret.
    cbn [call set_heap heap].
    rewrite (closure_of_app _ _ _ _ Hcode).
    unfold ext_call. change (heap (set_heap ?a ?b)) with a.
    rewrite Hext. rewrite app_nil_r. reflexivity.
Qed.

(** X14: each call of a wrapped method owns its span.  Two calls under a
    transaction start two spans; the status event of the handle of one
    call finishes the span of that call and leaves the other open.  The
    library here only adds objects to the heap. *)
Theorem calls_own_their_spans (fuel : nat) (f this : value)
    (args1 args2 : list value) (w : world) orig client stub sid name ct
    (id t : nat) (h1 h2 : loc) (o1 o2 : obj) (hp1 hp2 : list obj) :
  closure_of (heap w) f
    = Some (CGrpcWrapper orig (Some client) stub sid name ct) ->
  closure_of (heap w) orig = Some (CExt id) ->
  scopes w !! client = Some t ->
  ext id stub args1 (heap w) = (Ok (VRef h1), hp1) ->
  (forall l o, heap w !! l = Some o -> hp1 !! l = Some o) ->
  hp1 !! h1 = Some o1 -> listeners o1 = [] ->
  closure_of hp1 (lookup_chain (S (length hp1)) hp1 (VRef h1) (lit "on"))
    = Some COn ->
  let d := ct ++ lit " " ++ name in
  let o := lit "gcloud.grpc." ++ sid in
  let wa := instrumented client d o h1 (set_heap hp1 w) in
  ext id stub args2 (heap wa) = (Ok (VRef h2), hp2) ->
  (forall l o, heap wa !! l = Some o -> hp2 !! l = Some o) ->
  hp2 !! h2 = Some o2 -> listeners o2 = [] ->
  closure_of hp2 (lookup_chain (S (length hp2)) hp2 (VRef h2) (lit "on"))
    = Some COn ->
  let wb := instrumented client d o h2 (set_heap hp2 wa) in
  call ext (S (S fuel)) f this args1 w = (Ok (VRef h1), wa) /\
  call ext (S (S fuel)) f this args2 wa = (Ok (VRef h2), wb) /\
  spans wb = spans w ++ [mkSpan d o t 0; mkSpan d o t 0] /\
  spans (snd (emit ext (S fuel) (VRef h1) (lit "status") [] wb))
    = spans w ++ [mkSpan d o t 1; mkSpan d o t 0] /\
  spans (snd (emit ext (S fuel) (VRef h2) (lit "status") [] wb))
    = spans w ++ [mkSpan d o t 0; mkSpan d o t 1].
Proof.
  intros Hf Horig Ht Hext1 Hkeep1 Hh1 Hl1 Hon1 d o wa Hext2 Hkeep2 Hh2 Hl2
    Hon2 wb.
  assert (Hkeepa : forall v c, closure_of (heap w) v = Some c ->
                     closure_of (heap wa) v = Some c).
  { intros v c Hc. unfold wa, instrumented. cbn [heap set_heap].
    rewrite closure_of_alter by reflexivity. apply closure_of_app.
    eapply closure_of_kept; eassumption. }
  destruct (instrumented_spans client d o h1 (set_heap hp1 w) t Ht)
    as [Hspa Hca]. fold wa in Hspa, Hca. cbn [heap spans set_heap] in Hspa, Hca.
  assert (Hta : scopes (set_heap hp2 wa) !! client = Some t) by exact Ht.
  destruct (instrumented_spans client d o h2 (set_heap hp2 wa) t Hta)
    as [Hspb Hcb]. fold wb in Hspb, Hcb. cbn [heap spans set_heap] in Hspb, Hcb.
  pose proof (instrumented_handle client d o h1 (set_heap hp1 w) o1 Hh1) as Hha.
  fold wa in Hha. cbn [heap set_heap] in Hha.
  pose proof (instrumented_handle client d o h2 (set_heap hp2 wa) o2 Hh2) as Hhb.
  fold wb in Hhb. cbn [heap set_heap] in Hhb.
  assert (Hne : h2 <> h1).
  { intros ->. rewrite (Hkeep2 _ _ Hha) in Hh2. injection Hh2 as <-.
    cbn [add_listener listeners] in Hl2. rewrite Hl1 in Hl2. discriminate. }
  assert (Hhb1 : heap wb !! h1
                 = Some (add_listener (lit "status") (VRef (length hp1)) o1)).
  { unfold wb, instrumented. cbn [heap set_heap].
    rewrite list_lookup_alter_ne by assumption.
    apply lookup_app_l_Some. apply Hkeep2. exact Hha. }
  assert (Hcb1 : closure_of (heap wb) (VRef (length hp1))
                 = Some (CStatusListener (Some (length (spans w))))).
  { unfold wb, instrumented. cbn [heap set_heap].
    rewrite closure_of_alter by reflexivity. apply closure_of_app.
    eapply closure_of_kept; [exact Hkeep2 | exact Hca]. }
  split; [|split; [|split; [|split]]].
  - apply (wrapper_instruments ext (S fuel) f this args1 w orig client stub
             sid name ct h1 (set_heap hp1 w) Hf); [|exact Hon1].
    rewrite (call_ext ext fuel _ _ _ _ id Horig). unfold ext_call.
    rewrite Hext1. reflexivity.
  - apply (wrapper_instruments ext (S fuel) f this args2 wa orig client stub
             sid name ct h2 (set_heap hp2 wa) (Hkeepa _ _ Hf)); [|exact Hon2].
    rewrite (call_ext ext fuel _ _ _ _ id (Hkeepa _ _ Horig)). unfold ext_call.
    rewrite Hext2. reflexivity.
  - rewrite Hspb, Hspa, <- app_assoc. reflexivity.
  - rewrite (emit_status_listener fuel h1 _ (length hp1) (length (spans w))
               [] wb Hhb1)
      by (try exact Hcb1; cbn [add_listener listeners]; rewrite Hl1;
          reflexivity).
    cbn [snd set_spans spans]. rewrite Hspb, Hspa.
    rewrite alter_app_l by (rewrite length_app; simpl; lia).
    rewrite alter_last, <- app_assoc. reflexivity.
  - rewrite (emit_status_listener fuel h2 _ (length hp2) (length (spans wa))
               [] wb Hhb)
      by (try exact Hcb; cbn [add_listener listeners]; rewrite Hl2;
          reflexivity).
    cbn [snd set_spans spans]. rewrite Hspb.
    rewrite alter_last, Hspa, <- app_assoc. reflexivity.
Qed.

End MoreCallProperties.

(** ** Wrapping twice *)

Lemma lookup_chain_builtin (n : nat) (h : list obj) (key : jsstring) :
  lookup_chain n h VBuiltinProto key = VUndefined.
Proof. destruct n; reflexivity. Qed.

Lemma wrapped_wrapper_flags (client : option nat) (stub method : loc)
    (sid name key : jsstring) (w : world) :
  is_Some (heap w !! stub) ->
  lookup_chain (S (length (heap (wrapped client stub method sid name w))))
    (heap (wrapped client stub method sid name w))
    (VRef (length (heap w))) key = VUndefined.
Proof.
  intros [os Hos]. pose proof (lookup_lt_Some _ _ _ Hos) as Hlt.
  unfold wrapped. cbn [heap set_heap lookup_chain].
  rewrite list_lookup_alter_ne by lia.
  rewrite list_lookup_middle by reflexivity.
  cbn [function_obj props proto assoc]. apply lookup_chain_builtin.
Qed.

(** X15: [fillGrpcFunction] is not idempotent.  The wrapper carries no
    [requestStream] and no [responseStream], so it counts as a unary
    method: a second [fillGrpcFunction] on the same property wraps the
    wrapper of the first. *)
Theorem fillGrpcFunction_again (client : option nat) (stub method : loc)
    (sid name : jsstring) (w : world) :
  lookup_chain (S (length (heap w))) (heap w) (VRef stub) name = VRef method ->
  is_Some (closure_of (heap w) (VRef method)) ->
  truthy (lookup_chain (S (length (heap w))) (heap w) (VRef method)
            (lit "requestStream")) = false ->
  truthy (lookup_chain (S (length (heap w))) (heap w) (VRef method)
            (lit "responseStream")) = false ->
  fillGrpcFunction client (VRef stub) sid name w
    = (Ok tt, wrapped client stub method sid name w) /\
  fillGrpcFunction client (VRef stub) sid name
    (wrapped client stub method sid name w)
    = (Ok tt,
       wrapped client stub (length (heap w)) sid name
         (wrapped client stub method sid name w)).
Proof.
  intros Hm Hf Hreq Hres.
  pose proof (lookup_chain_ref _ _ _ _ _ Hm) as Hstub.
  split; [apply fillGrpcFunction_unary; assumption|].
  apply fillGrpcFunction_unary.
  - apply wrapped_method. assumption.
  - rewrite wrapped_wrapper. eauto.
  - rewrite wrapped_wrapper_flags by assumption. reflexivity.
  - rewrite wrapped_wrapper_flags by assumption. reflexivity.
Qed.

Lemma fillGrpcFunction_again_witness :
  fillGrpcFunction (Some 7) (VRef 8) (lit "pubsub") (lit "echo") demo_world
    = (Ok tt, demo_wrapped) /\
  fillGrpcFunction (Some 7) (VRef 8) (lit "pubsub") (lit "echo") demo_wrapped
    = (Ok tt, wrapped (Some 7) 8 15 (lit "pubsub") (lit "echo") demo_wrapped).
Proof.
  apply (fillGrpcFunction_again (Some 7) 8 2 (lit "pubsub") (lit "echo")
           demo_world); try reflexivity.
  eexists. reflexivity.
Defined.

Lemma lookup_chain_kept (h h' : list obj) :
  (forall l o, h !! l = Some o ->
     exists o', h' !! l = Some o' /\ props o' = props o /\ proto o' = proto o) ->
  forall n n' v key x,
    lookup_chain n h v key = VRef x -> n <= n' ->
    lookup_chain n' h' v key = VRef x.
Proof.
  intros Hk n. induction n as [|n IH]; intros n' v key x Hl Hle;
    [discriminate Hl|].
  destruct n' as [|n']; [lia|].
  destruct v; try discriminate Hl. cbn [lookup_chain] in Hl |- *.
  destruct (h !! l) as [o|] eqn:Ho; [|discriminate Hl].
  destruct (Hk l o Ho) as (o' & -> & -> & ->).
  destruct (assoc key (props o)); [exact Hl|].
  apply IH; [exact Hl | lia].
Qed.

Lemma instrumented_kept (client : nat) (d o : jsstring) (handle : loc)
    (w : world) :
  forall l ob, heap w !! l = Some ob ->
    exists ob', heap (instrumented client d o handle w) !! l = Some ob' /\
      props ob' = props ob /\ proto ob' = proto ob.
Proof.
  intros l ob Hl. unfold instrumented. cbn [heap].
  destruct (decide (handle = l)) as [->|Hne].
  - rewrite list_lookup_alter_eq, (lookup_app_l_Some _ _ _ _ Hl).
    eexists. split; [reflexivity|]. split; reflexivity.
  - rewrite list_lookup_alter_ne by assumption.
    rewrite (lookup_app_l_Some _ _ _ _ Hl). eauto.
Qed.

Section DoubleWrap.

Variable ext : nat -> value -> list value -> list obj -> result value * list obj.

(** X16: a method wrapped twice is traced twice.  One call of the stub's
    method under a transaction then starts two spans with the same
    description and operation, and one status event finishes both. *)
Theorem double_wrap_double_span (fuel : nat) (client : nat)
    (stub method : loc) (sid name : jsstring) (id t : nat) (this : value)
    (args : list value) (w : world) (handle : loc) (oh : obj)
    (h1 : list obj) :
  lookup_chain (S (length (heap w))) (heap w) (VRef stub) name = VRef method ->
  closure_of (heap w) (VRef method) = Some (CExt id) ->
  scopes w !! client = Some t ->
  let w1 := wrapped (Some client) stub method sid name w in
  let w2 := wrapped (Some client) stub (length (heap w)) sid name w1 in
  ext id (VRef stub) args (heap w2) = (Ok (VRef handle), h1) ->
  h1 !! handle = Some oh ->
  listeners oh = [] ->
  closure_of h1 (lookup_chain (S (length h1)) h1 (VRef handle) (lit "on"))
    = Some COn ->
  let d := lit "unary call " ++ name in
  let o := lit "gcloud.grpc." ++ sid in
  exists wrapper w3,
    get (VRef stub) name w2 = (Ok wrapper, w2) /\
    call ext (S (S (S fuel))) wrapper this args w2 = (Ok (VRef handle), w3) /\
    spans w3 = spans w ++ [mkSpan d o t 0; mkSpan d o t 0] /\
    spans (snd (emit ext (S fuel) (VRef handle) (lit "status") [] w3))
    = spans w ++ [mkSpan d o t 1; mkSpan d o t 1].
Proof.
  intros Hm Hf Ht w1 w2 Hext Hh Hl Hon d o.
  pose proof (lookup_chain_ref _ _ _ _ _ Hm) as Hstub.
  assert (Hstub1 : is_Some (heap w1 !! stub)).
  { destruct Hstub as [os Hos]. unfold w1, wrapped. cbn [heap set_heap].
    rewrite list_lookup_alter_eq, (lookup_app_l_Some _ _ _ _ Hos). eauto. }
  set (wa := instrumented client d o handle (set_heap h1 w2)).
  set (wb := instrumented client d o handle wa).
  assert (Hinner : call ext (S (S fuel)) (VRef (length (heap w))) (VRef stub)
                     args w2 = (Ok (VRef handle), wa)).
  { apply (wrapper_instruments ext (S fuel) _ (VRef stub) args w2
             (VRef method) client (VRef stub) sid name (lit "unary call")
             handle (set_heap h1 w2)).
    - unfold w2. apply wrapped_closure. apply wrapped_wrapper.
    - rewrite (call_ext ext fuel _ _ _ _ id)
        by (unfold w2; do 2 apply wrapped_closure; exact Hf).
      unfold ext_call. rewrite Hext. reflexivity.
    - exact Hon. }
  assert (Hon' : closure_of (heap wa)
                   (lookup_chain (S (length (heap wa))) (heap wa)
                      (VRef handle) (lit "on")) = Some COn).
  { destruct (lookup_chain (S (length h1)) h1 (VRef handle) (lit "on"))
      as [| | | |lon| |] eqn:Hlon; try discriminate Hon.
    rewrite (lookup_chain_kept h1 (heap wa)
               (instrumented_kept client d o handle (set_heap h1 w2))
               _ (S (length (heap wa))) _ _ _ Hlon).
    - unfold wa, instrumented. cbn [heap set_heap].
      rewrite closure_of_alter by reflexivity. apply closure_of_app. exact Hon.
    - unfold wa, instrumented. cbn [heap set_heap].
      rewrite length_alter, length_app. lia. }
  assert (Hta : scopes (set_heap h1 w2) !! client = Some t) by exact Ht.
  destruct (instrumented_spans client d o handle (set_heap h1 w2) t Hta)
    as [Hspa Hca]. fold wa in Hspa, Hca. cbn [heap spans set_heap] in Hspa, Hca.
  assert (Htb : scopes wa !! client = Some t) by exact Ht.
  destruct (instrumented_spans client d o handle wa t Htb) as [Hspb Hcb].
  fold wb in Hspb, Hcb.
  pose proof (instrumented_handle client d o handle (set_heap h1 w2) oh Hh)
    as Hha. fold wa in Hha. cbn [heap set_heap] in Hha.
  pose proof (instrumented_handle client d o handle wa _ Hha) as Hhb.
  fold wb in Hhb.
  exists (VRef (length (heap w1))), wb. split; [|split; [|split]].
  - unfold get, ret, w2. rewrite wrapped_method by assumption. reflexivity.
  - apply (wrapper_instruments ext (S (S fuel)) _ this args w2
             (VRef (length (heap w))) client (VRef stub) sid name
             (lit "unary call") handle wa).
    + unfold w2. apply wrapped_wrapper.
    + exact Hinner.
    + exact Hon'.
  - rewrite Hspb, Hspa, <- app_assoc. reflexivity.
  - unfold emit. rewrite Hhb. cbn [add_listener listeners]. rewrite Hl.
    cbn [app]. rewrite !filter_cons_True by reflexivity. rewrite filter_nil.
    cbn [for_of fst snd]. unfold bind.
    cbn [call].
    assert (Hc1 : closure_of (heap wb) (VRef (length h1))
                  = Some (CStatusListener (Some (length (spans w))))).
    { unfold wb, instrumented. cbn [heap].
      rewrite closure_of_alter by reflexivity. apply closure_of_app.
      exact Hca. }
    rewrite Hc1. cbn [status_listener]. unfold bind, finish, ret.
    change (heap (set_spans ?a ?b)) with (heap b).
    rewrite Hcb. cbn [status_listener]. unfold bind, finish, ret.
    cbn [snd set_spans spans].
    rewrite Hspb, Hspa.
    rewrite (alter_app_l _ (spans w ++ [mkSpan d o t 0]))
      by (rewrite length_app; simpl; lia).
    rewrite alter_last.
    change (spans w2) with (spans w).
    replace (length (spans w ++ [mkSpan d o t 0]))
      with (length (spans w ++ [finish_span (mkSpan d o t 0)]))
      by (rewrite !length_app; reflexivity).
    rewrite alter_last, <- app_assoc. reflexivity.
Qed.

End DoubleWrap.

(** ** The further properties at work *)

Lemma status_events_finish_witness :
  emit_times demo_ext 1 3 (VRef 16) (lit "status") [] demo_instrumented
  = (Ok tt,
     set_spans
       [mkSpan (lit "unary call echo") (lit "gcloud.grpc.pubsub") 1 3]
       demo_instrumented).
Proof.
  exact (status_events_finish demo_ext 0 3 7 (lit "unary call echo")
           (lit "gcloud.grpc.pubsub") 16 demo_handle 1 [] demo_echoed
           eq_refl eq_refl eq_refl).
Defined.

Lemma wrapper_on_throws_witness :
  call demo_ext 2 (VRef 15) (VRef 8) [] demo_on_throws
  = (Throw (VError (lit "UNAVAILABLE")),
     mkWorld
       (heap demo_on_throws ++ [function_obj (CStatusListener (Some 0))])
       (scopes demo_on_throws)
       [mkSpan (lit "unary call whoami") (lit "gcloud.grpc.pubsub") 1 0]
       (modules demo_on_throws)).
Proof.
  exact (wrapper_on_throws demo_ext 1 (VRef 15) (VRef 8) [] demo_on_throws
           (VRef 4) 7 (VRef 8) (lit "pubsub") (lit "whoami")
           (lit "unary call") 8 demo_on_throws 2 (VError (lit "UNAVAILABLE"))
           (heap demo_on_throws ++ [function_obj (CStatusListener (Some 0))])
           eq_refl eq_refl eq_refl eq_refl).
Defined.

Lemma calls_own_their_spans_witness :
  call demo_ext 2 (VRef 15) (VRef 8) [] demo_wrapped
    = (Ok (VRef 16), demo_instrumented) /\
  call demo_ext 2 (VRef 15) (VRef 8) [] demo_instrumented
    = (Ok (VRef 18),
       instrumented 7 (lit "unary call echo") (lit "gcloud.grpc.pubsub") 18
         demo_echoed_again) /\
  spans (instrumented 7 (lit "unary call echo") (lit "gcloud.grpc.pubsub") 18
           demo_echoed_again)
    = [mkSpan (lit "unary call echo") (lit "gcloud.grpc.pubsub") 1 0;
       mkSpan (lit "unary call echo") (lit "gcloud.grpc.pubsub") 1 0] /\
  spans (snd (emit demo_ext 1 (VRef 16) (lit "status") []
                (instrumented 7 (lit "unary call echo")
                   (lit "gcloud.grpc.pubsub") 18 demo_echoed_again)))
    = [mkSpan (lit "unary call echo") (lit "gcloud.grpc.pubsub") 1 1;
       mkSpan (lit "unary call echo") (lit "gcloud.grpc.pubsub") 1 0] /\
  spans (snd (emit demo_ext 1 (VRef 18) (lit "status") []
                (instrumented 7 (lit "unary call echo")
                   (lit "gcloud.grpc.pubsub") 18 demo_echoed_again)))
    = [mkSpan (lit "unary call echo") (lit "gcloud.grpc.pubsub") 1 0;
       mkSpan (lit "unary call echo") (lit "gcloud.grpc.pubsub") 1 1].
Proof.
  refine (calls_own_their_spans demo_ext 0 (VRef 15) (VRef 8) [] []
            demo_wrapped (VRef 2) 7 (VRef 8) (lit "pubsub") (lit "echo")
            (lit "unary call") 0 1 16 18 demo_handle demo_handle
            (heap demo_wrapped ++ [demo_handle])
            (heap demo_instrumented ++ [demo_handle])
            eq_refl eq_refl eq_refl eq_refl _ eq_refl eq_refl eq_refl
            eq_refl _ eq_refl eq_refl eq_refl).
  - intros l o. apply lookup_app_l_Some.
  - intros l o. apply lookup_app_l_Some.
Defined.

Lemma double_wrap_double_span_witness :
  exists wrapper w3,
    get (VRef 8) (lit "echo") demo_wrapped_twice
      = (Ok wrapper, demo_wrapped_twice) /\
    call demo_ext 3 wrapper (VRef 8) [] demo_wrapped_twice
      = (Ok (VRef 17), w3) /\
    spans w3
      = [mkSpan (lit "unary call echo") (lit "gcloud.grpc.pubsub") 1 0;
         mkSpan (lit "unary call echo") (lit "gcloud.grpc.pubsub") 1 0] /\
    spans (snd (emit demo_ext 1 (VRef 17) (lit "status") [] w3))
      = [mkSpan (lit "unary call echo") (lit "gcloud.grpc.pubsub") 1 1;
         mkSpan (lit "unary call echo") (lit "gcloud.grpc.pubsub") 1 1].
Proof.
  exact (double_wrap_double_span demo_ext 0 7 8 2 (lit "pubsub") (lit "echo")
           0 1 (VRef 8) [] demo_world 17 demo_handle
           (heap demo_wrapped_twice ++ [demo_handle])
           eq_refl eq_refl eq_refl eq_refl eq_refl eq_refl eq_refl).
Defined.

(** ** From registration to the creation of a stub *)

Section InstallThenCreate.

Variable ext : nat -> value -> list value -> list obj -> result value * list obj.

(** X17: after [install], a call of [createStub] of the library with a
    [servicePath] in its options calls the original with the same receiver
    and arguments and returns a promise that awaits what the original
    returned; the continuation holds the client given to [install] and the
    service identifier of the path. *)
Theorem install_then_createStub (self : GoogleCloudGrpc) (client : nat)
    (w : world) (lg lc lp : loc) (og oc op : obj) (eg ec ep : bool)
    (orig : value) (id : nat) (this : value) (args : list value)
    (s : jsstring) (p : value) (hp : list obj) :
  modules w !! lit "google-gax" = Some (Ok (VRef lg)) ->
  heap w !! lg = Some og ->
  assoc (lit "GrpcClient") (props og) = Some (mkProp eg (VRef lc)) ->
  heap w !! lc = Some oc ->
  assoc (lit "prototype") (props oc) = Some (mkProp ec (VRef lp)) ->
  heap w !! lp = Some op ->
  assoc (lit "createStub") (props op) = Some (mkProp ep orig) ->
  closure_of (heap w) orig = Some (CExt id) ->
  servicePath_arg args (heap (snd (snd (install self client w)))) = VStr s ->
  ext id this args (heap (snd (snd (install self client w)))) = (Ok p, hp) ->
  exists f,
    get (VRef lp) (lit "createStub") (snd (snd (install self client w)))
      = (Ok f, snd (snd (install self client w))) /\
    call ext 2 f this args (snd (snd (install self client w)))
      = (Ok (VRef (length hp)),
         set_heap
           (hp ++ [promise_obj
                     (AAwaiting p
                        (KWrapMethods (Some client) (identifyService s)))])
           (snd (snd (install self client w)))).
Proof.
  intros Hmod Hg Hgc Hc Hcp Hp Hpc Horig.
  rewrite (install_loaded self client w lg lc lp og oc op eg ec ep orig)
    by assumption.
  cbn [snd]. intros Hsp Hext.
  exists (VRef (length (heap w))). split.
  - destruct (patched_createStub client lp orig w op Hp) as (op' & e & Hop' & He).
    rewrite (get_own _ _ _ _ _ Hop' He). reflexivity.
  - rewrite (call_createStub ext 1 _ _ _ _ orig (Some client))
      by apply patched_wrapper.
    unfold bind at 1.
    rewrite (createStub_start_present ext 1 _ _ _ _ _ s Hsp).
    rewrite (call_ext ext 0 _ _ _ _ id).
    + unfold ext_call. rewrite Hext. reflexivity.
    + unfold patched. cbn [heap set_heap].
      rewrite closure_of_alter by reflexivity. apply closure_of_app.
      exact Horig.
Qed.

End InstallThenCreate.

Lemma install_then_createStub_witness :
  exists f,
    get (VRef 10) (lit "createStub") demo_installed = (Ok f, demo_installed) /\
    call demo_ext 2 f (VRef 14) [VUndefined; VRef 13] demo_installed
      = (Ok (VRef 17),
         set_heap
           ((heap demo_installed ++ [mkObj VBuiltinProto [] None [] None])
            ++ [promise_obj
                  (AAwaiting (VRef 16)
                     (KWrapMethods (Some 7)
                        (identifyService (lit "pubsub.googleapis.com"))))])
           demo_installed).
Proof.
  exact (install_then_createStub demo_ext (constructor None) 7 demo_world
           12 11 10 _ _ _ true false true (VRef 9) 4 (VRef 14)
           [VUndefined; VRef 13] (lit "pubsub.googleapis.com") (VRef 16)
           (heap demo_installed ++ [mkObj VBuiltinProto [] None [] None])
           eq_refl eq_refl eq_refl eq_refl eq_refl eq_refl eq_refl eq_refl
           eq_refl eq_refl).
Defined.
